(** * Russian-verb deck builder: the word-form generator, the selector and
      the phrase templater of [build_ru_verbs_1000_allinone.py]

    The development embeds the core of the script as Rocq functions and
    proves the properties the specification states about it.

    Conventions of the embedding.
    - A Python [str] is a [string] holding the UTF-8 bytes of the source
      literal.  Concatenation and equality of valid UTF-8 agree with the
      code-point operations of Python; the one code-point operation of the
      script, the slice [base_inf[:3]], is [py_take_chars].
    - A Python tuple [(root, inf, gloss)] is a triple; the row dictionaries
      of [main] are the record [Row].
    - The dictionary [CURATED_DERIVS] is an association list in insertion
      order (the literal has no repeated key), which is the order
      [.items()] iterates in.
    - The two [seen] sets are reached only through [set()], [.add] and
      [in].  They are modelled behind the interface [PySet], so that every
      statement holds whatever the internal layout of the set is (the
      layout of a CPython set of strings changes from one process to the
      next with the hash seed).
    - [for] loops over a list are left folds over the loop state; the
      [while] loop of [main], which has no structural bound, takes fuel.
    - Code that can raise returns an [outcome]. *)

From stdpp Require Import gmap strings list.
From Stdlib Require Import Ascii DecimalString DecimalNat.

Open Scope string_scope.
Open Scope list_scope.
Open Scope nat_scope.

(** ** Data model *)

(** [(root_tag, headword, gloss)], the tuples of [BASE_VERBS] and of
    [candidates]. *)
Abbreviation Candidate := (string * string * string)%type.

Definition cand_root (c : Candidate) : string := c.1.1.
Definition cand_inf (c : Candidate) : string := c.1.2.
Definition cand_gloss (c : Candidate) : string := c.2.

(** The dictionaries appended to [rows] in [main]. *)
Record Row : Type := mkRow {
  root_tag : string;
  russian : string;
  english_gloss : string;
  phrase_ru : string;
  literal_en : string
}.

(** Exceptions the embedded code can raise. *)
Inductive exn : Type :=
| ZeroDivisionError
| IndexError
| FormatError
| SynthesisFailure
| ValueError
| FileNotFoundError.

(** Result of running a piece of the script: a value, an exception, or no
    answer within the fuel given to an unbounded loop. *)
Inductive outcome (A : Type) : Type :=
| Done (a : A)
| Raise (e : exn)
| OutOfFuel.
Arguments Done {A} a.
Arguments Raise {A} e.
Arguments OutOfFuel {A}.

#[export] Instance outcome_ret : MRet outcome := fun A a => Done a.
#[export] Instance outcome_bind : MBind outcome := fun A B k m =>
  match m with
  | Done a => k a
  | Raise e => Raise e
  | OutOfFuel => OutOfFuel
  end.

#[export] Instance outcome_fmap : FMap outcome := fun A B f m =>
  match m with
  | Done a => Done (f a)
  | Raise e => Raise e
  | OutOfFuel => OutOfFuel
  end.

(** ** The interface of a Python [set] of strings *)

Class PySet (S : Type) : Type := {
  set_new : S;
  set_add : string → S → S;
  set_in : string → S → bool;
  set_in_new : ∀ v, set_in v set_new = false;
  set_in_add : ∀ v w s, set_in v (set_add w s) = (v =? w)%string || set_in v s
}.

(** Two layouts: a [gset] and an unordered bucket that conses the new
    member in front. *)
#[export, refine] Instance gset_PySet : PySet (gset string) := {|
  set_new := ∅;
  set_add w s := {[w]} ∪ s;
  set_in v s := bool_decide (v ∈ s)
|}.
Proof.
  - intros v. apply bool_decide_eq_false. set_solver.
  - intros v w s. destruct (String.eqb_spec v w) as [->|Hne]; simpl.
    + apply bool_decide_eq_true. set_solver.
    + apply bool_decide_ext. rewrite elem_of_union, elem_of_singleton. tauto.
Defined.

#[export, refine] Instance list_PySet : PySet (list string) := {|
  set_new := [];
  set_add w s := w :: s;
  set_in v s := existsb (String.eqb v) s
|}.
Proof.
  - reflexivity.
  - reflexivity.
Defined.

(** ** Seed tables *)

Definition PREFIXES : list string :=
  ["по"; "про"; "пере"; "под"; "при"; "вы"; "за"; "на"; "от"; "до"; "об";
   "с"; "у"; "вз"; "в"].

Definition BASE_VERBS : list Candidate :=
  [ ("дел-", "делать", "to do; to make")
  ; ("сказ-", "сказать", "to say (pfv)")
  ; ("говор-", "говорить", "to speak; to talk")
  ; ("ид-", "идти", "to go (uni-dir)")
  ; ("ход-", "ходить", "to go (multi-dir)")
  ; ("вид-", "видеть", "to see")
  ; ("смотр-", "смотреть", "to watch; to look")
  ; ("дум-", "думать", "to think")
  ; ("знал-", "знать", "to know")
  ; ("пис-", "писать", "to write")
  ; ("читал-", "читать", "to read")
  ; ("работ-", "работать", "to work")
  ; ("жил-", "жить", "to live")
  ; ("хот-", "хотеть", "to want")
  ; ("мочь", "мочь", "to be able; can")
  ; ("брать", "брать", "to take")
  ; ("взять", "взять", "to take (pfv)")
  ; ("давать", "давать", "to give")
  ; ("дать", "дать", "to give (pfv)")
  ; ("есть", "есть", "to eat")
  ; ("пить", "пить", "to drink")
  ; ("сто-", "стоять", "to stand")
  ; ("сид-", "сидеть", "to sit")
  ; ("леж-", "лежать", "to lie (be lying)")
  ; ("став-", "ставить", "to put; to set")
  ; ("постав-", "поставить", "to put; to place (pfv)")
  ; ("беж-", "бежать", "to run (uni-dir)")
  ; ("езд-", "ездить", "to go by vehicle (multi-dir)")
  ; ("ехать", "ехать", "to go by vehicle (uni-dir)")
  ; ("начин-", "начинать", "to begin")
  ; ("нач-", "начать", "to begin (pfv)")
  ; ("конч-", "кончать", "to finish")
  ; ("законч-", "закончить", "to finish (pfv)")
  ; ("покуп-", "покупать", "to buy")
  ; ("куп-", "купить", "to buy (pfv)")
  ; ("продав-", "продавать", "to sell")
  ; ("продать", "продать", "to sell (pfv)")
  ; ("уч-", "учиться", "to study; to learn")
  ; ("уч-", "учить", "to teach; to learn")
  ; ("помог-", "помогать", "to help")
  ; ("помочь", "помочь", "to help (pfv)")
  ; ("игр-", "играть", "to play")
  ; ("слуш-", "слушать", "to listen")
  ; ("слыш-", "слышать", "to hear")
  ; ("показыв-", "показывать", "to show")
  ; ("показ-", "показать", "to show (pfv)")
  ; ("брос-", "бросать", "to throw")
  ; ("брос-", "бросить", "to throw (pfv)")
  ; ("держ-", "держать", "to hold")
  ; ("иск-", "искать", "to search; to look for")
  ; ("най-", "найти", "to find (pfv)")
  ; ("плат-", "платить", "to pay")
  ; ("откры-", "открывать", "to open")
  ; ("откры-", "открыть", "to open (pfv)")
  ; ("закры-", "закрывать", "to close")
  ; ("закры-", "закрыть", "to close (pfv)")
  ; ("ждать", "ждать", "to wait")
  ; ("приглаш-", "приглашать", "to invite")
  ; ("приглас-", "пригласить", "to invite (pfv)")
  ; ("провер-", "проверять", "to check; to verify")
  ; ("провер-", "проверить", "to check (pfv)")
  ; ("помнить", "помнить", "to remember")
  ; ("забыв-", "забывать", "to forget")
  ; ("забы-", "забыть", "to forget (pfv)")
  ; ("спраш-", "спрашивать", "to ask (a question)")
  ; ("спрос-", "спросить", "to ask (pfv)")
  ; ("отвеч-", "отвечать", "to answer")
  ; ("ответ-", "ответить", "to answer (pfv)")
  ; ("жел-", "желать", "to wish")
  ; ("звон-", "звонить", "to call (on the phone)")
  ; ("позвон-", "позвонить", "to call (pfv)")
  ; ("сним-", "снимать", "to remove; to take off; to rent")
  ; ("снят-", "снять", "to remove; to take off (pfv)")
  ; ("клад-", "класть", "to lay; to put")
  ; ("полож-", "положить", "to put (pfv)")
  ; ("мысл-", "мыслить", "to think (abstract)")
  ; ("получ-", "получать", "to receive; to get")
  ; ("получ-", "получить", "to receive (pfv)")
  ; ("отправ-", "отправлять", "to send")
  ; ("отправ-", "отправить", "to send (pfv)")
  ; ("приним-", "принимать", "to accept; to take (medicine)")
  ; ("прин-", "принять", "to accept; to take (pfv)")
  ; ("реш-", "решать", "to decide; to solve")
  ; ("реш-", "решить", "to decide; to solve (pfv)")
  ; ("мен-", "менять", "to change")
  ; ("помен-", "поменять", "to change (pfv)")
  ; ("объясн-", "объяснять", "to explain")
  ; ("объясн-", "объяснить", "to explain (pfv)")
  ; ("готов-", "готовить", "to cook; to prepare")
  ; ("приготов-", "приготовить", "to prepare (pfv)")
  ; ("путеш-", "путешествовать", "to travel")
  ; ("кат-", "кататься", "to ride; to skate") ].

Definition CURATED_DERIVS : list (string * list (string * string)) :=
  [ ("идти",
      [ ("войти", "to enter (pfv)")
      ; ("выйти", "to exit (pfv)")
      ; ("прийти", "to come (pfv)")
      ; ("уйти", "to leave (pfv)")
      ; ("зайти", "to stop by (pfv)")
      ; ("подойти", "to approach (pfv)")
      ; ("перейти", "to cross (pfv)")
      ; ("сойти", "to step down (pfv)")
      ; ("найтись", "to be found (pfv)") ])
  ; ("ходить",
      [ ("приходить", "to come")
      ; ("уходить", "to leave")
      ; ("заходить", "to drop by")
      ; ("подходить", "to approach; to fit")
      ; ("переходить", "to cross")
      ; ("входить", "to enter")
      ; ("выходить", "to exit; to go out")
      ; ("обходить", "to go around")
      ; ("проходить", "to pass; to go through")
      ; ("доходить", "to reach; to get to")
      ; ("отходить", "to move away; depart")
      ; ("находить", "to find") ])
  ; ("говорить",
      [ ("поговорить", "to have a talk (pfv)")
      ; ("договориться", "to come to terms (pfv)")
      ; ("оговориться", "to misspeak (pfv)")
      ; ("переговорить", "to talk over (pfv)")
      ; ("рассказать", "to tell (pfv)")
      ; ("досказать", "to finish saying (pfv)")
      ; ("сказать", "to say (pfv)") ])
  ; ("видеть",
      [ ("увидеть", "to see (pfv)")
      ; ("предвидеть", "to foresee")
      ; ("перевидать", "to see many (colloq)")
      ; ("видеться", "to see each other")
      ; ("рассмотреть", "to examine (pfv)") ])
  ; ("писать",
      [ ("записать", "to write down (pfv)")
      ; ("подписать", "to sign (pfv)")
      ; ("переписать", "to rewrite (pfv)")
      ; ("выписать", "to prescribe; to write out (pfv)")
      ; ("написать", "to write (pfv)")
      ; ("дописать", "to finish writing (pfv)")
      ; ("описать", "to describe (pfv)")
      ; ("прописать", "to register; to prescribe (pfv)")
      ; ("списать", "to copy; to plagiarize (pfv)") ])
  ; ("читать",
      [ ("прочитать", "to read (pfv)")
      ; ("перечитать", "to reread (pfv)")
      ; ("зачитать", "to read out (pfv)")
      ; ("дочитать", "to finish reading (pfv)")
      ; ("начитать", "to record readings (pfv)") ])
  ; ("работать",
      [ ("сработать", "to work out (pfv)")
      ; ("переработать", "to rework; to overwork (pfv)")
      ; ("заработать", "to earn; to start working (pfv)")
      ; ("отработать", "to work off; to perfect (pfv)")
      ; ("доработать", "to finalize; to refine (pfv)")
      ; ("проработать", "to work through; to work for (time) (pfv)") ])
  ; ("есть",
      [ ("съесть", "to eat up (pfv)")
      ; ("доесть", "to finish eating (pfv)")
      ; ("переесть", "to overeat (pfv)")
      ; ("поесть", "to eat a bit (pfv)") ])
  ; ("пить",
      [ ("выпить", "to drink up (pfv)")
      ; ("попить", "to drink a bit (pfv)")
      ; ("запить", "to wash down (pfv)")
      ; ("перепить", "to outdrink; to overdrink (pfv)") ])
  ; ("брать",
      [ ("взять", "to take (pfv)")
      ; ("забрать", "to take away (pfv)")
      ; ("собрать", "to gather (pfv)")
      ; ("набрать", "to dial; to gather (pfv)")
      ; ("подобрать", "to pick up (pfv)")
      ; ("отобрать", "to select; to take away (pfv)")
      ; ("перебрать", "to sort (pfv)")
      ; ("выбрать", "to choose (pfv)") ])
  ; ("давать",
      [ ("отдавать", "to give back")
      ; ("передавать", "to pass; to transmit")
      ; ("раздавать", "to hand out")
      ; ("даваться", "to be given; to come easy") ])
  ; ("дать",
      [ ("отдать", "to give back (pfv)")
      ; ("передать", "to pass; to transmit (pfv)")
      ; ("выдать", "to issue (pfv)")
      ; ("передаться", "to be transmitted (pfv)") ])
  ; ("спрашивать",
      [ ("спросить", "to ask (pfv)")
      ; ("расспросить", "to question thoroughly (pfv)")
      ; ("переспросить", "to ask again (pfv)") ])
  ; ("слушать",
      [ ("послушать", "to listen (pfv)")
      ; ("выслушать", "to listen out (pfv)")
      ; ("прослушать", "to listen through; to miss (pfv)") ])
  ; ("смотреть",
      [ ("посмотреть", "to watch (pfv)")
      ; ("рассмотреть", "to examine (pfv)")
      ; ("пересмотреть", "to reconsider; to rewatch (pfv)")
      ; ("насмотреться", "to have seen enough (pfv)") ]) ].

Definition PHRASE_TEMPLATES : list (string * string) :=
  [ ("Я хочу {inf}.", "I want {inf}.")
  ; ("Он может {inf}.", "He can {inf}.")
  ; ("Мы будем {inf} завтра.", "We will {inf} tomorrow.")
  ; ("Я не хочу {inf} сегодня.", "I not want {inf} today.")
  ; ("Пожалуйста, не надо {inf}.", "Please, not need {inf}.") ].

(** ** Form generator: [build_candidate_forms] *)

(** A byte [10xxxxxx] continues the code point begun before it. *)
Definition utf8_continuation (a : ascii) : bool :=
  match a with
  | Ascii _ _ _ _ _ _ false true => true
  | _ => false
  end.

(** [s[:n]]: the first [n] code points of [s]. *)
Fixpoint py_take_chars (n : nat) (s : string) : string :=
  match s with
  | EmptyString => EmptyString
  | String a rest =>
      if utf8_continuation a then String a (py_take_chars n rest)
      else match n with
           | 0 => EmptyString
           | S n' => String a (py_take_chars n' rest)
           end
  end.

(** [inf in CURATED_DERIVS]. *)
Definition dict_contains {V : Type} (d : list (string * V)) (k : string) : bool :=
  existsb (fun kv => (kv.1 =? k)%string) d.

Section FormGenerator.
Context {S : Type} `{PySet S}.
Variable base_verbs : list Candidate.
Variable curated_derivs : list (string * list (string * string)).
Variable prefixes : list string.

(** First loop: every base entry is appended unchanged. *)
Definition append_base (candidates : list Candidate) : list Candidate :=
  fold_left (fun cs '(root, inf, gloss) => cs ++ [(root, inf, gloss)])
            base_verbs candidates.

(** [next((r for r, v, g in BASE_VERBS if v == base_inf),
          base_inf[:3] + "-")]. *)
Definition resolve_root (base_inf : string) : string :=
  match List.find (fun '(r, v, g) => (v =? base_inf)%string) base_verbs with
  | Some (r, _, _) => r
  | None => py_take_chars 3 base_inf +:+ "-"
  end.

(** Second loop, over [CURATED_DERIVS.items()]. *)
Definition append_derivs (candidates : list Candidate) : list Candidate :=
  fold_left
    (fun cs '(base_inf, pairs) =>
       let root := resolve_root base_inf in
       fold_left (fun cs '(v, g) => cs ++ [(root, v, g)]) pairs cs)
    curated_derivs candidates.

(** The local function [add_pref]. *)
Definition add_pref (root inf gloss_base : string)
    (candidates : list Candidate) : list Candidate :=
  fold_left
    (fun cs p =>
       let formed := p +:+ inf in
       if (formed =? inf)%string then cs
       else cs ++ [(root, formed, gloss_base +:+ " (prefixed)")])
    prefixes candidates.

(** Third loop: base entries with curated derivatives are skipped. *)
Definition append_prefixed (candidates : list Candidate) : list Candidate :=
  fold_left
    (fun cs '(root, inf, gloss) =>
       if dict_contains curated_derivs inf then cs
       else add_pref root inf gloss cs)
    base_verbs candidates.

(** The sequence [candidates] as it stands before the last loop. *)
Definition emitted_candidates : list Candidate :=
  append_prefixed (append_derivs (append_base [])).

(** Last loop: keep a triple when its headword is not in [seen]. *)
Definition dedup_step (st : S * list Candidate) (c : Candidate)
    : S * list Candidate :=
  let '(seen, uniq) := st in
  let '(root, v, g) := c in
  if set_in v seen then (seen, uniq)
  else (set_add v seen, uniq ++ [(root, v, g)]).

Definition dedup_loop (candidates : list Candidate) : S * list Candidate :=
  fold_left dedup_step candidates (set_new, []).

Definition build_candidate_forms : list Candidate :=
  (dedup_loop emitted_candidates).2.
End FormGenerator.

(** ** Phrase templater: [make_phrases] *)

(** [t.format(inf=verb)] on the fragment of format strings made of literal
    text, the replacement field [{inf}] and the escapes [{{] and [}}].
    [None] stands for a template outside that fragment (an unknown or
    unterminated field, a lone closing brace), on which the embedding gives
    no string. *)
Fixpoint format_inf (t verb : string) : option string :=
  match t with
  | EmptyString => Some EmptyString
  | String "{" (String "{" rest) => String "{" <$> format_inf rest verb
  | String "{" (String "i" (String "n" (String "f" (String "}" rest)))) =>
      String.append verb <$> format_inf rest verb
  | String "{" _ => None
  | String "}" (String "}" rest) => String "}" <$> format_inf rest verb
  | String "}" _ => None
  | String c rest => String c <$> format_inf rest verb
  end.

Definition make_phrases (verb : string) (idx : nat) : outcome (string * string) :=
  match length PHRASE_TEMPLATES with
  | 0 => Raise ZeroDivisionError
  | len =>
      match PHRASE_TEMPLATES !! (idx mod len) with
      | None => Raise IndexError
      | Some (t_ru, t_en) =>
          match format_inf t_ru verb, format_inf t_en verb with
          | Some p_ru, Some p_en => Done (p_ru, p_en)
          | _, _ => Raise FormatError
          end
      end
  end.

(** ** Selector: the two loops of [main] that fill [rows] *)

Section Selector.
Context {S : Type} `{PySet S}.
(** The row target, [1000] in [main]. *)
Variable N : nat.

(** [for root, v, g in cands: ...], with its [continue] and [break]. *)
Fixpoint first_pass (cands : list Candidate) (rows : list Row) (seen : S)
    : outcome (list Row * S) :=
  match cands with
  | [] => Done (rows, seen)
  | (root, v, g) :: rest =>
      if set_in v seen then first_pass rest rows seen
      else
        let seen := set_add v seen in
        '(phr_ru, lit_en) ← make_phrases v (length rows);
        let rows := rows ++ [mkRow root v g phr_ru lit_en] in
        if N <=? length rows then Done (rows, seen)
        else first_pass rest rows seen
  end.

(** One turn of the body of [while len(rows) < 1000], on the state
    [(rows, seen, i)]; [i % len(cands)] raises when [cands] is empty. *)
Definition wrap_body (cands : list Candidate) (st : list Row * S * nat)
    : outcome (list Row * S * nat) :=
  let '(rows, seen, i) := st in
  match length cands with
  | 0 => Raise ZeroDivisionError
  | len =>
      match cands !! (i mod len) with
      | None => Raise IndexError
      | Some (root, v, g) =>
          if negb (set_in v seen) then
            let seen := set_add v seen in
            '(phr_ru, lit_en) ← make_phrases v (length rows);
            Done (rows ++ [mkRow root v g phr_ru lit_en], seen, i + 1)
          else Done (rows, seen, i + 1)
      end
  end.

(** The [while] loop: it leaves when [len(rows) < 1000] fails, and
    answers [OutOfFuel] when [fuel] turns were not enough. *)
Fixpoint wrap_loop (fuel : nat) (cands : list Candidate)
    (st : list Row * S * nat) : outcome (list Row * S * nat) :=
  if N <=? length st.1.1 then Done st
  else
    match fuel with
    | 0 => OutOfFuel
    | Datatypes.S fuel' => st' ← wrap_body cands st; wrap_loop fuel' cands st'
    end.

(** Both loops; the answer is the final [rows] with the final [seen]. *)
Definition select_rows (fuel : nat) (cands : list Candidate)
    : outcome (list Row * S) :=
  '(rows, seen) ← first_pass cands [] set_new;
  '(rows, seen, _) ← wrap_loop fuel cands (rows, seen, 0);
  mret (rows, seen).
End Selector.

(** ** Deck packaging and [main] *)

(** A [genanki.Note]: its fields and its tags. *)
Record Note : Type := mkNote {
  note_fields : list string;
  note_tags : list string
}.

(** The parsed command line. *)
Record Args : Type := mkArgs {
  arg_out : string;
  arg_no_audio : bool;
  arg_espeak : bool;
  arg_deck_name : string
}.

(** What a run leaves behind: the rows written to the CSV file, and the
    notes and media files handed to the packager (or the exception raised
    while they were being built; the CSV file is written before). *)
Record Outputs : Type := mkOutputs {
  csv_rows : list Row;
  package : outcome (list Note * list string)
}.

(** [str(i)] for a non-negative [i]. *)
Definition str_of_nat (i : nat) : string :=
  NilEmpty.string_of_uint (Nat.to_uint i).

(** [' ' in tag]: the test [genanki.Note] makes on each of its tags. *)
Fixpoint contains_space (s : string) : bool :=
  match s with
  | EmptyString => false
  | String a rest => Ascii.eqb a " " || contains_space rest
  end.

Section Main.
Context {S : Type} `{PySet S}.
(** Collaborators outside the core: the regular-expression substitution
    of [safe_name], the two synthesizers ([true]: the audio file was
    written, [false]: the call raised), the media directory derived from
    the output path, and the files that are there before the run.  Of the
    packaging library two refusals are modelled, both decided by what
    [build_anki] hands over: [genanki.Note] raises [ValueError] on a tag
    with a space, and [write_to_file] raises on a listed media file that
    does not exist.  Other failures of input and output (a path that
    cannot be written, a full disk) are outside the model. *)
Variable safe_name : string → string.
Variable synth_audio_gtts : string → string → bool.
Variable synth_audio_espeak : string → string → bool.
Variable media_dir_of : string → string.
Variable file_exists : string → bool.

(** The body of [for i, r in enumerate(rows)] in [build_anki], on the
    state [(notes, media_files, written)]; [written] lists the files the
    synthesizers have written so far.  [outp] is [media_dir / fname],
    whose [.name] is [fname]. *)
Definition build_anki_step (media_dir audio_mode : string)
    (st : list Note * list string * list string) (i : nat) (r : Row)
    : outcome (list Note * list string * list string) :=
  let '(notes, media_files, written) := st in
  let ru := russian r in
  let en := english_gloss r in
  let phr_ru := phrase_ru r in
  let lit_en := literal_en r in
  let tag := root_tag r in
  '(audio_html, media_files, written) ←
    (if negb (audio_mode =? "none")%string then
       let fname :=
         if (audio_mode =? "gtts")%string
         then safe_name ru +:+ "_" +:+ str_of_nat i +:+ ".mp3"
         else safe_name ru +:+ "_" +:+ str_of_nat i +:+ ".wav" in
       let outp := media_dir +:+ "/" +:+ fname in
       written ←
         (if (audio_mode =? "gtts")%string then
            if synth_audio_gtts phr_ru outp then Done (written ++ [outp])
            else Raise SynthesisFailure
          else if (audio_mode =? "espeak")%string then
            if synth_audio_espeak phr_ru outp then Done (written ++ [outp])
            else Raise SynthesisFailure
          else Done written);
       Done ("[sound:" +:+ fname +:+ "]", media_files ++ [outp], written)
     else Done ("", media_files, written));
  note ←
    (if contains_space tag then Raise ValueError
     else Done (mkNote [ru; en; phr_ru; lit_en; audio_html; tag]
                       (if (tag =? "")%string then [] else [tag])));
  Done (notes ++ [note], media_files, written).

Fixpoint build_anki_loop (media_dir audio_mode : string)
    (st : list Note * list string * list string) (i : nat) (rows : list Row)
    : outcome (list Note * list string * list string) :=
  match rows with
  | [] => Done st
  | r :: rest =>
      st' ← build_anki_step media_dir audio_mode st i r;
      build_anki_loop media_dir audio_mode st' (i + 1) rest
  end.

(** The loop, then [pkg.write_to_file], which reads every file of
    [media_files]: a file is there when it was there before the run or a
    synthesizer has written it.  The answer is what the package holds. *)
Definition build_anki (deck_name : string) (rows : list Row)
    (out_apkg audio_mode : string) : outcome (list Note * list string) :=
  '(notes, media_files, written) ←
    build_anki_loop (media_dir_of out_apkg) audio_mode ([], [], []) 0 rows;
  if forallb (λ path, file_exists path || existsb (String.eqb path) written)
             media_files
  then Done (notes, media_files)
  else Raise FileNotFoundError.

Definition audio_mode_of (args : Args) : string :=
  if arg_no_audio args then "none"
  else if arg_espeak args then "espeak"
  else "gtts".

Definition main (fuel : nat) (args : Args) : outcome Outputs :=
  let audio_mode := audio_mode_of args in
  let cands := build_candidate_forms BASE_VERBS CURATED_DERIVS PREFIXES in
  '(rows, _) ← select_rows 1000 fuel cands;
  mret (mkOutputs rows
          (build_anki (arg_deck_name args) rows (arg_out args) audio_mode)).
End Main.

(** ** The specification's reading of the pipeline

    The definitions of this part follow the words of the specification, not
    the loops of the script; the theorems below compare the two. *)

Section SpecReading.
Variable base_verbs : list Candidate.
Variable curated_derivs : list (string * list (string * string)).
Variable prefixes : list string.

(** Curated derivatives in table order, each under the tag resolved for
    its key. *)
Definition spec_derived_segment : list Candidate :=
  '(key, pairs) ← curated_derivs;
  (λ '(v, g), (resolve_root base_verbs key, v, g)) <$> pairs.

(** The prefixed forms of one base entry, in prefix-list order, without
    the degenerate ones. *)
Definition spec_prefixed_of (b : Candidate) : list Candidate :=
  (λ p, (cand_root b, p +:+ cand_inf b, cand_gloss b +:+ " (prefixed)"))
    <$> filter (λ p, p +:+ cand_inf b ≠ cand_inf b) prefixes.

(** Prefixed forms in base-list-then-prefix-list order, for the base
    entries without curated derivatives. *)
Definition spec_prefixed_segment : list Candidate :=
  filter (λ b, cand_inf b ∉ curated_derivs.*1) base_verbs
    ≫= spec_prefixed_of.

Definition spec_emitted : list Candidate :=
  base_verbs ++ spec_derived_segment ++ spec_prefixed_segment.
End SpecReading.

(** Deduplication by headword: the first element stays, every later
    element with its headword goes, and so on along the list. *)
Fixpoint keep_first_by_headword (l : list Candidate) : list Candidate :=
  match l with
  | [] => []
  | c :: rest =>
      c :: filter (λ c', cand_inf c' ≠ cand_inf c) (keep_first_by_headword rest)
  end.

Definition spec_form_generator (base_verbs : list Candidate)
    (curated_derivs : list (string * list (string * string)))
    (prefixes : list string) : list Candidate :=
  keep_first_by_headword (spec_emitted base_verbs curated_derivs prefixes).

Fixpoint string_drop (n : nat) (s : string) : string :=
  match n, s with
  | 0, _ => s
  | Datatypes.S n', String _ rest => string_drop n' rest
  | Datatypes.S _, EmptyString => EmptyString
  end.

(** The template with its slot [{inf}] replaced by the headword: the text
    before the first slot, the headword, the text after the slot. *)
Fixpoint substitute_slot (t v : string) : string :=
  match t with
  | EmptyString => EmptyString
  | String c rest =>
      if String.prefix "{inf}" t then v +:+ string_drop 5 t
      else String c (substitute_slot rest v)
  end.

(** No brace in [s]: [s] is plain text around a slot. *)
Fixpoint brace_free (s : string) : bool :=
  match s with
  | EmptyString => true
  | String c rest =>
      negb (Ascii.eqb c "{") && negb (Ascii.eqb c "}") && brace_free rest
  end.

(** The phrase pair of the template chosen round-robin by the position. *)
Definition round_robin_phrases (v : string) (i : nat) : string * string :=
  match PHRASE_TEMPLATES !! (i mod length PHRASE_TEMPLATES) with
  | Some (t_ru, t_en) => (substitute_slot t_ru v, substitute_slot t_en v)
  | None => ("", "")
  end.

Definition round_robin_row (i : nat) (c : Candidate) : Row :=
  mkRow (cand_root c) (cand_inf c) (cand_gloss c)
        (round_robin_phrases (cand_inf c) i).1
        (round_robin_phrases (cand_inf c) i).2.

(** The candidates in order, the one at position [i] of the whole
    sequence with the phrases of position [i]; [start] is the position of
    the first of them. *)
Fixpoint round_robin_rows_from (start : nat) (cs : list Candidate) : list Row :=
  match cs with
  | [] => []
  | c :: rest =>
      round_robin_row start c :: round_robin_rows_from (Datatypes.S start) rest
  end.

Definition round_robin_rows (cs : list Candidate) : list Row :=
  round_robin_rows_from 0 cs.

(** The candidates a pass over [cands] can still select when [seen] holds
    the headwords taken so far: first occurrences whose headword is not in
    [seen]. *)
Definition unseen_first {S : Type} `{PySet S} (seen : S)
    (cands : list Candidate) : list Candidate :=
  filter (λ c, set_in (cand_inf c) seen = false) (keep_first_by_headword cands).

(** The five values a row gives to its note, in the order of the note's
    fields. *)
Definition row_fields (r : Row) : list string :=
  [russian r; english_gloss r; phrase_ru r; literal_en r; root_tag r].

(** The fields of a note without the audio reference. *)
Definition note_row_fields (n : Note) : list string :=
  match note_fields n with
  | [ru; en; phr_ru; lit_en; _; tag] => [ru; en; phr_ru; lit_en; tag]
  | other => other
  end.

(** The audio reference of a note. *)
Definition note_audio (n : Note) : option string := note_fields n !! 4.

(** [p] is the template [t] with the headword [v] in its single slot. *)
Definition fills_single_slot (t v p : string) : Prop :=
  ∃ before after,
    brace_free before = true ∧ brace_free after = true ∧
    t = before +:+ "{inf}" +:+ after ∧
    p = before +:+ v +:+ after.

(** ** File names: [safe_name]

    [re.sub(r'[^0-9a-zA-Zа-яА-ЯёЁ_.-]+', '_', s)] works on code points.  A
    string is cut into its code points, each kept as its UTF-8 bytes; the
    class of the pattern is read on those bytes. *)

(** The code points of [s]: a byte that is no continuation byte starts a
    code point, the continuation bytes after it belong to it. *)
Fixpoint utf8_chars (s : string) : list string :=
  match s with
  | EmptyString => []
  | String a rest =>
      match utf8_chars rest with
      | String b c :: cs =>
          if utf8_continuation b then String a (String b c) :: cs
          else String a EmptyString :: String b c :: cs
      | cs => String a EmptyString :: cs
      end
  end.

Definition byte_in (lo hi : nat) (a : ascii) : bool :=
  (lo <=? nat_of_ascii a) && (nat_of_ascii a <=? hi).

(** A one-byte character of the class: [0-9], [a-z], [A-Z], [_], [.], [-]. *)
Definition allowed_ascii (a : ascii) : bool :=
  byte_in 48 57 a || byte_in 97 122 a || byte_in 65 90 a
  || Ascii.eqb a "_" || Ascii.eqb a "." || Ascii.eqb a "-".

(** A character of the class [0-9a-zA-Zа-яА-ЯёЁ_.-].  In UTF-8 the range
    [А-Я] with the first half of [а-я] (U+0410 to U+043F) is [D0 90] to
    [D0 BF], the second half of [а-я] (U+0440 to U+044F) is [D1 80] to
    [D1 8F], [Ё] (U+0401) is [D0 81] and [ё] (U+0451) is [D1 91]. *)
Definition allowed_char (c : string) : bool :=
  match c with
  | String a EmptyString => allowed_ascii a
  | String a (String b EmptyString) =>
      (nat_of_ascii a =? 208) && (byte_in 144 191 b || (nat_of_ascii b =? 129))
      || (nat_of_ascii a =? 209) && (byte_in 128 143 b || (nat_of_ascii b =? 145))
  | _ => false
  end.

(** The substitution along the code points: a character of the class is
    copied, a maximal run of other characters becomes one ["_"];
    [in_run] tells that the run has begun. *)
Fixpoint sub_runs (cs : list string) (in_run : bool) : string :=
  match cs with
  | [] => EmptyString
  | c :: rest =>
      if allowed_char c then c +:+ sub_runs rest false
      else if in_run then sub_runs rest true
      else "_" +:+ sub_runs rest true
  end.

Definition safe_name (s : string) : string := sub_runs (utf8_chars s) false.


(** The characters put back together. *)
Definition join_chars (cs : list string) : string :=
  foldr String.append EmptyString cs.

(** Every byte of [s] passes the test [p]. *)
Fixpoint all_bytes (p : ascii → bool) (s : string) : bool :=
  match s with
  | EmptyString => true
  | String a rest => p a && all_bytes p rest
  end.

(** A whole code point: a byte that is no continuation byte, then
    continuation bytes only. *)
Definition whole_char (c : string) : bool :=
  match c with
  | EmptyString => false
  | String a conts => negb (utf8_continuation a) && all_bytes utf8_continuation conts
  end.

(** [s] does not begin in the middle of a code point. *)
Definition starts_whole (s : string) : bool :=
  match s with
  | EmptyString => true
  | String a _ => negb (utf8_continuation a)
  end.

(** ** Packaging, row by row *)

(** [fname] in [build_anki]: [f"{safe_name(ru)}_{i}.mp3"] in mode
    ["gtts"], [f"{safe_name(ru)}_{i}.wav"] otherwise. *)
Definition media_file_name (safe_name : string → string)
    (audio_mode : string) (i : nat) (r : Row) : string :=
  if (audio_mode =? "gtts")%string
  then safe_name (russian r) +:+ "_" +:+ str_of_nat i +:+ ".mp3"
  else safe_name (russian r) +:+ "_" +:+ str_of_nat i +:+ ".wav".

(** The call of the synthesizer for the row at position [i]: the networked
    one in mode ["gtts"], the offline one in mode ["espeak"], none in any
    other mode. *)
Definition synthesis_succeeds (safe_name : string → string)
    (synth_audio_gtts synth_audio_espeak : string → string → bool)
    (media_dir audio_mode : string) (i : nat) (r : Row) : bool :=
  let outp := media_dir +:+ "/" +:+ media_file_name safe_name audio_mode i r in
  if (audio_mode =? "gtts")%string then synth_audio_gtts (phrase_ru r) outp
  else if (audio_mode =? "espeak")%string then synth_audio_espeak (phrase_ru r) outp
  else true.

(** The [genanki.Note] built for a row, given its audio reference. *)
Definition note_of_row (audio_html : string) (r : Row) : Note :=
  mkNote [russian r; english_gloss r; phrase_ru r; literal_en r; audio_html;
          root_tag r]
         (if (root_tag r =? "")%string then [] else [root_tag r]).

(** The audio reference of the row at position [i]. *)
Definition audio_reference (safe_name : string → string)
    (audio_mode : string) (i : nat) (r : Row) : string :=
  if (audio_mode =? "none")%string then ""
  else "[sound:" +:+ media_file_name safe_name audio_mode i r +:+ "]".

(** What the loop of [build_anki] builds for rows that start at position
    [i]: the notes and the paths of the media files. *)
Fixpoint notes_from (safe_name : string → string) (audio_mode : string)
    (i : nat) (rows : list Row) : list Note :=
  match rows with
  | [] => []
  | r :: rest =>
      note_of_row (audio_reference safe_name audio_mode i r) r
        :: notes_from safe_name audio_mode (Datatypes.S i) rest
  end.

Fixpoint media_from (safe_name : string → string)
    (media_dir audio_mode : string) (i : nat) (rows : list Row) : list string :=
  match rows with
  | [] => []
  | r :: rest =>
      (media_dir +:+ "/" +:+ media_file_name safe_name audio_mode i r)
        :: media_from safe_name media_dir audio_mode (Datatypes.S i) rest
  end.

(** The exception the loop of [build_anki] stops on, for rows that start at
    position [i]: that of the first row whose synthesis fails or whose tag
    has a space; [None] when there is no such row. *)
Fixpoint first_failure (safe_name : string → string)
    (synth_audio_gtts synth_audio_espeak : string → string → bool)
    (media_dir audio_mode : string) (i : nat) (rows : list Row) : option exn :=
  match rows with
  | [] => None
  | r :: rest =>
      if negb (synthesis_succeeds safe_name synth_audio_gtts synth_audio_espeak
                 media_dir audio_mode i r)
      then Some SynthesisFailure
      else if contains_space (root_tag r) then Some ValueError
      else first_failure safe_name synth_audio_gtts synth_audio_espeak
             media_dir audio_mode (Datatypes.S i) rest
  end.

(** The media files listed for the rows, and those among them that a
    synthesizer writes. *)
Definition listed_from (safe_name : string → string)
    (media_dir audio_mode : string) (i : nat) (rows : list Row) : list string :=
  if (audio_mode =? "none")%string then []
  else media_from safe_name media_dir audio_mode i rows.

Definition written_from (safe_name : string → string)
    (media_dir audio_mode : string) (i : nat) (rows : list Row) : list string :=
  if (audio_mode =? "gtts")%string || (audio_mode =? "espeak")%string
  then media_from safe_name media_dir audio_mode i rows
  else [].

(** * Properties *)

Example py_take_chars_cyrillic : py_take_chars 3 "говорить" = "гов".
Proof. reflexivity. Qed.

Example py_take_chars_short : py_take_chars 3 "ab" = "ab".
Proof. reflexivity. Qed.

Example py_take_chars_mixed : py_take_chars 3 "aёbc" = "aёb".
Proof. reflexivity. Qed.

Example format_inf_escapes : format_inf "a{{b}}{inf}c" "XY" = Some "a{b}XYc".
Proof. reflexivity. Qed.

Example format_inf_unknown_field : format_inf "a{0}" "XY" = None.
Proof. reflexivity. Qed.

Example str_of_nat_digits : str_of_nat 0 = "0" ∧ str_of_nat 107 = "107".
Proof. split; reflexivity. Qed.

(** A pool of four with target three: the first loop stops at the third. *)
Example select_rows_three_of_four :
  select_rows (S:=list string) 3 0 (take 4 BASE_VERBS)
  = Done ([mkRow "дел-" "делать" "to do; to make"
                 "Я хочу делать." "I want делать.";
           mkRow "сказ-" "сказать" "to say (pfv)"
                 "Он может сказать." "He can сказать.";
           mkRow "говор-" "говорить" "to speak; to talk"
                 "Мы будем говорить завтра." "We will говорить tomorrow."],
          ["говорить"; "сказать"; "делать"]).
Proof. reflexivity. Qed.

(** A repeated headword is selected once. *)
Example select_rows_repeated_headword :
  select_rows (S:=list string) 2 0
    [("a-", "делать", "one"); ("b-", "делать", "two"); ("c-", "знать", "three")]
  = Done ([mkRow "a-" "делать" "one" "Я хочу делать." "I want делать.";
           mkRow "c-" "знать" "three" "Он может знать." "He can знать."],
          ["знать"; "делать"]).
Proof. reflexivity. Qed.

(** The tables of a small deck: two verbs, one of them with a curated
    derivative, and two prefixes of which one is empty. *)
Example build_candidate_forms_small :
  build_candidate_forms (S:=list string)
    [("ид-", "идти", "to go"); ("дел-", "делать", "to do")]
    [("идти", [("войти", "to enter")]); ("плыть", [("уплыть", "to swim away")])]
    ["по"; ""]
  = [("ид-", "идти", "to go"); ("дел-", "делать", "to do");
     ("ид-", "войти", "to enter"); ("плы-", "уплыть", "to swim away");
     ("дел-", "поделать", "to do (prefixed)")].
Proof. reflexivity. Qed.

(** Packaging of one row with the networked synthesizer, a [safe_name] that
    changes nothing and synthesizers that succeed. *)
Example build_anki_gtts_one_row :
  build_anki (λ s, s) (λ _ _, true) (λ _ _, true) (λ out, out +:+ "_media")
    (λ _, false)
    "deck" [mkRow "дел-" "делать" "to do" "Я хочу делать." "I want делать."]
    "out" "gtts"
  = Done ([mkNote ["делать"; "to do"; "Я хочу делать."; "I want делать.";
                   "[sound:делать_0.mp3]"; "дел-"] ["дел-"]],
          ["out_media/делать_0.mp3"]).
Proof. reflexivity. Qed.

Example utf8_chars_mixed : utf8_chars "aёb" = ["a"; "ё"; "b"].
Proof. reflexivity. Qed.

Example safe_name_headword : safe_name "переговорить" = "переговорить".
Proof. reflexivity. Qed.

Example safe_name_runs :
  safe_name "to do; to make" = "to_do_to_make" ∧
  safe_name "Ёж/№ 5.mp3" = "Ёж_5.mp3" ∧
  safe_name "  " = "_" ∧
  safe_name "" = "".
Proof. repeat split; reflexivity. Qed.

Example safe_name_foreign_letters : safe_name "їжак-1" = "_жак-1".
Proof. reflexivity. Qed.

(** A tag with a space: [genanki.Note] refuses it, audio or not. *)
Example build_anki_tag_with_space :
  build_anki safe_name (λ _ _, true) (λ _ _, true) (λ out, out +:+ "_media")
    (λ _, false)
    "deck" [mkRow "to go" "идти" "to go" "Я хочу идти." "I want идти."]
    "out" "none"
  = Raise ValueError.
Proof. reflexivity. Qed.

(** A mode without synthesizer lists a file that nobody writes: packaging
    fails unless the file was there before. *)
Example build_anki_mode_without_synthesizer :
  build_anki safe_name (λ _ _, true) (λ _ _, true) (λ out, out +:+ "_media")
    (λ _, false)
    "deck" [mkRow "ид-" "идти" "to go" "Я хочу идти." "I want идти."]
    "out" "flac"
  = Raise FileNotFoundError ∧
  build_anki safe_name (λ _ _, true) (λ _ _, true) (λ out, out +:+ "_media")
    (String.eqb "out_media/идти_0.wav")
    "deck" [mkRow "ид-" "идти" "to go" "Я хочу идти." "I want идти."]
    "out" "flac"
  = Done ([mkNote ["идти"; "to go"; "Я хочу идти."; "I want идти.";
                   "[sound:идти_0.wav]"; "ид-"] ["ид-"]],
          ["out_media/идти_0.wav"]).
Proof. split; reflexivity. Qed.

(** A synthesizer that fails at the second row stops the run. *)
Example build_anki_synthesis_fails :
  build_anki safe_name (λ phrase _, String.eqb phrase "Я хочу идти.")
    (λ _ _, true) (λ out, out +:+ "_media") (λ _, false)
    "deck" [mkRow "ид-" "идти" "to go" "Я хочу идти." "I want идти.";
            mkRow "ход-" "ходить" "to go" "Он может ходить." "He can ходить."]
    "out" "gtts"
  = Raise SynthesisFailure.
Proof. reflexivity. Qed.

(** ** Form generator *)

(** A loop that only appends is an append of what each turn contributes. *)
Lemma fold_left_appends {A B : Type} (step : list A → B → list A)
    (f : B → list A) (l : list B) (acc : list A) :
  (∀ cs x, step cs x = cs ++ f x) →
  fold_left step l acc = acc ++ (l ≫= f).
Proof.
  intros Hstep. revert acc.
  induction l as [|x l IH]; intros acc; cbn [fold_left].
  - by rewrite app_nil_r.
  - rewrite IH, Hstep, bind_cons. by rewrite <- app_assoc.
Qed.

Section FormGeneratorFacts.
Variable base_verbs : list Candidate.
Variable curated_derivs : list (string * list (string * string)).
Variable prefixes : list string.

Lemma append_base_spec cs :
  append_base base_verbs cs = cs ++ base_verbs.
Proof.
  unfold append_base.
  rewrite (fold_left_appends _ (λ c, [c])).
  - f_equal. induction base_verbs as [|c l IH]; [done|].
    by rewrite bind_cons, IH.
  - by intros ? [[??]?].
Qed.

Lemma append_derivs_spec cs :
  append_derivs base_verbs curated_derivs cs
  = cs ++ spec_derived_segment base_verbs curated_derivs.
Proof.
  unfold append_derivs, spec_derived_segment.
  apply fold_left_appends. intros acc [key pairs].
  rewrite (fold_left_appends _ (λ '(v, g), [(resolve_root base_verbs key, v, g)])).
  - f_equal. induction pairs as [|[v g] l IH]; [done|].
    by rewrite bind_cons, IH.
  - by intros ? [??].
Qed.

Lemma dict_contains_spec {V : Type} (d : list (string * V)) k :
  dict_contains d k = bool_decide (k ∈ d.*1).
Proof.
  induction d as [|[k' x] d IH]; simpl.
  - done.
  - rewrite IH. destruct (String.eqb_spec k' k) as [->|Hne]; simpl.
    + symmetry. apply bool_decide_eq_true. left.
    + apply bool_decide_ext. rewrite elem_of_cons.
      split; [by right | by intros [?|?]].
Qed.

Lemma add_pref_spec root inf gloss cs :
  add_pref prefixes root inf gloss cs
  = cs ++ spec_prefixed_of prefixes (root, inf, gloss).
Proof.
  unfold add_pref, spec_prefixed_of, cand_root, cand_inf, cand_gloss; simpl.
  rewrite (fold_left_appends _
    (λ p, if (p +:+ inf =? inf)%string then []
          else [(root, p +:+ inf, gloss +:+ " (prefixed)")])).
  - f_equal. induction prefixes as [|p l IH]; [done|].
    rewrite bind_cons, IH, filter_cons.
    destruct (String.eqb_spec (p +:+ inf) inf) as [Heq|Hne].
    + by rewrite decide_False by (intros Hn; by apply Hn).
    + by rewrite decide_True by done.
  - intros acc p. destruct (p +:+ inf =? inf)%string; [|done].
    by rewrite app_nil_r.
Qed.

Lemma append_prefixed_spec cs :
  append_prefixed base_verbs curated_derivs prefixes cs
  = cs ++ spec_prefixed_segment base_verbs curated_derivs prefixes.
Proof.
  unfold append_prefixed, spec_prefixed_segment.
  rewrite (fold_left_appends _
    (λ b, if dict_contains curated_derivs (cand_inf b) then []
          else spec_prefixed_of prefixes b)).
  - f_equal. induction base_verbs as [|b l IH]; [done|].
    rewrite bind_cons, IH, filter_cons, dict_contains_spec.
    case_bool_decide; simpl.
    + by rewrite decide_False by (intros Hn; by apply Hn).
    + by rewrite decide_True by done.
  - intros acc [[root inf] gloss]. unfold cand_inf; simpl.
    destruct (dict_contains curated_derivs inf); [by rewrite app_nil_r|].
    apply add_pref_spec.
Qed.

Lemma emitted_candidates_spec :
  emitted_candidates base_verbs curated_derivs prefixes
  = spec_emitted base_verbs curated_derivs prefixes.
Proof.
  unfold emitted_candidates, spec_emitted.
  by rewrite append_prefixed_spec, append_derivs_spec, append_base_spec,
    <- app_assoc.
Qed.
End FormGeneratorFacts.

(** ** Deduplication by headword *)

Lemma keep_first_sublist l : keep_first_by_headword l `sublist_of` l.
Proof.
  induction l as [|c l IH]; simpl; [done|].
  apply sublist_skip. etrans; [apply sublist_filter|done].
Qed.

Lemma keep_first_headwords l v :
  v ∈ cand_inf <$> keep_first_by_headword l ↔ v ∈ cand_inf <$> l.
Proof.
  induction l as [|c l IH]; simpl; [done|].
  rewrite !elem_of_cons, <- IH, !list_elem_of_fmap.
  split.
  - intros [->|(x & -> & [_ Hx]%list_elem_of_filter)]; [by left|].
    right. by exists x.
  - intros [->|(x & -> & Hx)]; [by left|].
    destruct (decide (cand_inf x = cand_inf c)) as [Heq|Hne]; [by left|].
    right. exists x. split; [done|]. by apply list_elem_of_filter.
Qed.

Lemma keep_first_NoDup l : NoDup (cand_inf <$> keep_first_by_headword l).
Proof.
  induction l as [|c l IH]; simpl; [constructor|].
  apply NoDup_cons. split.
  - intros (x & Heq & [Hne _]%list_elem_of_filter)%list_elem_of_fmap.
    by apply Hne.
  - eapply sublist_NoDup; [exact IH|].
    apply fmap_sublist, sublist_filter.
Qed.

Lemma filter_other_headword_id (l : list Candidate) v :
  v ∉ cand_inf <$> l → filter (λ c', cand_inf c' ≠ v) l = l.
Proof.
  induction l as [|d l IH]; [done|].
  rewrite fmap_cons. intros [Hd Hl]%not_elem_of_cons.
  rewrite filter_cons_True by (intros Heq; by apply Hd).
  f_equal. by apply IH.
Qed.

Lemma keep_first_id l :
  NoDup (cand_inf <$> l) → keep_first_by_headword l = l.
Proof.
  induction l as [|c l IH]; simpl; [done|].
  intros [Hc Hl]%NoDup_cons. rewrite IH by done. f_equal.
  by apply filter_other_headword_id.
Qed.

(** A kept element is the first element of the list with its headword. *)
Lemma keep_first_is_first l c :
  c ∈ keep_first_by_headword l ↔
  ∃ i, l !! i = Some c ∧
       ∀ j c', j < i → l !! j = Some c' → cand_inf c' ≠ cand_inf c.
Proof.
  revert c. induction l as [|d l IH]; intros c; simpl.
  - split; [by intros ?%elem_of_nil|]. by intros (i & ? & _).
  - rewrite elem_of_cons, list_elem_of_filter, IH. split.
    + intros [->|[Hne (i & Hi & Hfirst)]].
      * exists 0. split; [done|]. intros j c' Hj. lia.
      * exists (Datatypes.S i). split; [done|].
        intros [|j] c' Hj Hc'; simpl in Hc'.
        -- by injection Hc' as ->.
        -- apply (Hfirst j); [lia|done].
    + intros ([|i] & Hi & Hfirst); simpl in Hi.
      * left. by injection Hi.
      * right. split.
        -- intros Heq. by apply (Hfirst 0 d); [lia|done|].
        -- exists i. split; [done|]. intros j c' Hj Hc'.
           apply (Hfirst (Datatypes.S j)); [lia|done].
Qed.

Lemma keep_first_length l : length (keep_first_by_headword l) ≤ length l.
Proof. apply sublist_length, keep_first_sublist. Qed.

Section DedupFacts.
Context {S : Type} `{PySet S}.

(** What the last loop of [build_candidate_forms] has appended to [uniq]
    once it has gone through [l]. *)
Lemma dedup_loop_from (l : list Candidate) (seen : S) (uniq : list Candidate) :
  (fold_left dedup_step l (seen, uniq)).2
  = uniq ++ filter (λ c, set_in (cand_inf c) seen = false)
                   (keep_first_by_headword l).
Proof.
  revert seen uniq. induction l as [|[[root v] g] l IH]; intros seen uniq.
  - simpl. by rewrite app_nil_r.
  - cbn [fold_left keep_first_by_headword dedup_step].
    destruct (set_in v seen) eqn:Hv.
    + rewrite IH, filter_cons_False by (unfold cand_inf; simpl; congruence).
      f_equal. symmetry. apply list_filter_filter_l.
      intros x Hx Heq. unfold cand_inf in *; simpl in *. congruence.
    + rewrite IH, <- app_assoc, filter_cons_True by done.
      simpl. do 2 f_equal.
      rewrite list_filter_filter. apply list_filter_iff. intros x.
      rewrite set_in_add. unfold cand_inf; simpl.
      destruct (String.eqb_spec x.1.2 v) as [->|Hne]; simpl.
      * split; [done|]. by intros [_ ?].
      * tauto.
Qed.

Lemma dedup_loop_spec (l : list Candidate) :
  (dedup_loop l).2 = keep_first_by_headword l.
Proof.
  unfold dedup_loop. rewrite dedup_loop_from. simpl.
  induction (keep_first_by_headword l) as [|c k IH]; [done|].
  rewrite filter_cons_True by apply set_in_new. by f_equal.
Qed.

Lemma build_candidate_forms_spec base_verbs curated_derivs prefixes :
  build_candidate_forms base_verbs curated_derivs prefixes
  = spec_form_generator base_verbs curated_derivs prefixes.
Proof.
  unfold build_candidate_forms, spec_form_generator.
  by rewrite dedup_loop_spec, emitted_candidates_spec.
Qed.
End DedupFacts.

(** ** Phrase templater *)

Lemma string_app_empty (s : string) : "" +:+ s = s.
Proof. reflexivity. Qed.

Lemma string_app_cons (c : ascii) (s t : string) :
  String c s +:+ t = String c (s +:+ t).
Proof. reflexivity. Qed.

(** A character that is no brace is copied by [format]. *)
Lemma format_inf_plain c rest v :
  Ascii.eqb c "{" = false → Ascii.eqb c "}" = false →
  format_inf (String c rest) v = String c <$> format_inf rest v.
Proof.
  destruct c as [[] [] [] [] [] [] [] []]; simpl; intros Ho Hc;
    first [discriminate Ho | discriminate Hc | reflexivity].
Qed.

Lemma format_inf_text s v :
  brace_free s = true → format_inf s v = Some s.
Proof.
  induction s as [|c s IH]; [done|].
  cbn [brace_free]. intros [[Ho Hc]%andb_true_iff Hs]%andb_true_iff.
  apply negb_true_iff in Ho, Hc.
  rewrite format_inf_plain, IH by done. done.
Qed.

(** On a template with one slot [format] puts the verb in the slot. *)
Lemma format_inf_single_slot before after v :
  brace_free before = true → brace_free after = true →
  format_inf (before +:+ "{inf}" +:+ after) v = Some (before +:+ v +:+ after).
Proof.
  intros Hb Ha. induction before as [|c s IH].
  - rewrite !string_app_empty, !string_app_cons, string_app_empty.
    cbn [format_inf]. by rewrite format_inf_text.
  - cbn [brace_free] in Hb.
    apply andb_true_iff in Hb as [[Ho Hc]%andb_true_iff Hs].
    apply negb_true_iff in Ho, Hc.
    rewrite !(string_app_cons c s), format_inf_plain, IH by done. done.
Qed.

Lemma substitute_slot_single_slot before after v :
  brace_free before = true →
  substitute_slot (before +:+ "{inf}" +:+ after) v = before +:+ v +:+ after.
Proof.
  intros Hb. induction before as [|c s IH].
  - by destruct after.
  - cbn [brace_free] in Hb.
    apply andb_true_iff in Hb as [[Ho Hc]%andb_true_iff Hs].
    apply negb_true_iff in Ho.
    rewrite !(string_app_cons c s). cbn [substitute_slot String.prefix].
    destruct (ascii_dec "{" c) as [<-|_]; [discriminate Ho|].
    by rewrite IH.
Qed.

Lemma fills_single_slot_format t v p :
  fills_single_slot t v p → format_inf t v = Some p ∧ substitute_slot t v = p.
Proof.
  intros (before & after & Hb & Ha & -> & ->). split.
  - by apply format_inf_single_slot.
  - by apply substitute_slot_single_slot.
Qed.

Lemma PHRASE_TEMPLATES_length : length PHRASE_TEMPLATES = 5.
Proof. reflexivity. Qed.

(** Each of the five templates has one slot in its Russian and one in its
    English half. *)
Lemma PHRASE_TEMPLATES_single_slot k t_ru t_en v :
  PHRASE_TEMPLATES !! k = Some (t_ru, t_en) →
  fills_single_slot t_ru v (substitute_slot t_ru v) ∧
  fills_single_slot t_en v (substitute_slot t_en v).
Proof.
  intros Hk.
  destruct k as [|[|[|[|[|k]]]]]; [..|done]; injection Hk as <- <-.
  - split; [exists "Я хочу ", "." | exists "I want ", "."]; by repeat split.
  - split; [exists "Он может ", "." | exists "He can ", "."]; by repeat split.
  - split; [exists "Мы будем ", " завтра." | exists "We will ", " tomorrow."];
      by repeat split.
  - split; [exists "Я не хочу ", " сегодня." | exists "I not want ", " today."];
      by repeat split.
  - split; [exists "Пожалуйста, не надо ", "." | exists "Please, not need ", "."];
      by repeat split.
Qed.

(** [make_phrases] never raises, and its answer is the round-robin pair. *)
Lemma make_phrases_spec v idx :
  make_phrases v idx = Done (round_robin_phrases v idx).
Proof.
  unfold make_phrases, round_robin_phrases.
  rewrite PHRASE_TEMPLATES_length.
  destruct (PHRASE_TEMPLATES !! (idx mod 5)) as [[t_ru t_en]|] eqn:Hk.
  - destruct (PHRASE_TEMPLATES_single_slot _ _ _ v Hk) as [Hru Hen].
    apply fills_single_slot_format in Hru as [-> _].
    apply fills_single_slot_format in Hen as [-> _]. done.
  - apply lookup_ge_None in Hk. rewrite PHRASE_TEMPLATES_length in Hk.
    pose proof (Nat.mod_upper_bound idx 5). lia.
Qed.

(** ** Selector *)

Lemma round_robin_rows_from_length start cs :
  length (round_robin_rows_from start cs) = length cs.
Proof.
  revert start. induction cs as [|c cs IH]; intros start; simpl; [done|].
  by rewrite IH.
Qed.

Lemma round_robin_rows_from_lookup start cs i :
  round_robin_rows_from start cs !! i = round_robin_row (start + i) <$> cs !! i.
Proof.
  revert start i. induction cs as [|c cs IH]; intros start [|i]; simpl; try done.
  - by rewrite Nat.add_0_r.
  - rewrite IH. by replace (Datatypes.S start + i) with (start + Datatypes.S i) by lia.
Qed.

Lemma round_robin_rows_from_russian start cs :
  russian <$> round_robin_rows_from start cs = cand_inf <$> cs.
Proof.
  revert start. induction cs as [|c cs IH]; intros start; simpl; [done|].
  by rewrite IH.
Qed.

Section SelectorFacts.
Context {S : Type} `{PySet S}.
Variable N : nat.

Lemma unseen_first_nil (seen : S) : unseen_first seen [] = [].
Proof. reflexivity. Qed.

(** A candidate whose headword is in [seen] changes nothing. *)
Lemma unseen_first_cons_seen (seen : S) c rest :
  set_in (cand_inf c) seen = true →
  unseen_first seen (c :: rest) = unseen_first seen rest.
Proof.
  intros Hc. unfold unseen_first. cbn [keep_first_by_headword].
  rewrite filter_cons_False by congruence.
  apply list_filter_filter_l. intros x Hx Heq. congruence.
Qed.

(** A candidate with a new headword comes first, and the rest is what
    remains selectable once its headword is in [seen]. *)
Lemma unseen_first_cons_fresh (seen : S) c rest :
  set_in (cand_inf c) seen = false →
  unseen_first seen (c :: rest)
  = c :: unseen_first (set_add (cand_inf c) seen) rest.
Proof.
  intros Hc. unfold unseen_first. cbn [keep_first_by_headword].
  rewrite filter_cons_True by done. f_equal.
  rewrite list_filter_filter. apply list_filter_iff. intros x.
  rewrite set_in_add.
  destruct (String.eqb_spec (cand_inf x) (cand_inf c)) as [Heq|Hne]; simpl.
  - split; [by intros [_ ?]|done].
  - tauto.
Qed.

Lemma unseen_first_new cands :
  unseen_first (set_new (S:=S)) cands = keep_first_by_headword cands.
Proof.
  unfold unseen_first.
  induction (keep_first_by_headword cands) as [|c k IH]; [done|].
  rewrite filter_cons_True by apply set_in_new. by f_equal.
Qed.

Lemma first_pass_cons_seen root v g rest rows (seen : S) :
  set_in v seen = true →
  first_pass N ((root, v, g) :: rest) rows seen = first_pass N rest rows seen.
Proof. intros Hv. cbn [first_pass]. by rewrite Hv. Qed.

Lemma first_pass_cons_fresh root v g rest rows (seen : S) :
  set_in v seen = false →
  first_pass N ((root, v, g) :: rest) rows seen
  = if N <=? length (rows ++ [round_robin_row (length rows) (root, v, g)])
    then Done (rows ++ [round_robin_row (length rows) (root, v, g)],
               set_add v seen)
    else first_pass N rest
           (rows ++ [round_robin_row (length rows) (root, v, g)])
           (set_add v seen).
Proof.
  intros Hv. cbn [first_pass]. rewrite Hv, make_phrases_spec.
  unfold round_robin_row, cand_root, cand_inf, cand_gloss. cbn.
  by destruct (round_robin_phrases v (length rows)).
Qed.

(** The [for] loop of [main], from any state short of the target: it
    appends the next selectable candidates, as many as the target still
    allows, and adds their headwords to [seen]. *)
Lemma first_pass_from cands rows (seen : S) :
  length rows < N →
  ∃ seen',
    first_pass N cands rows seen
    = Done (rows ++ round_robin_rows_from (length rows)
                      (take (N - length rows) (unseen_first seen cands)),
            seen') ∧
    ∀ x, set_in x seen'
         = set_in x seen
           || bool_decide
                (x ∈ cand_inf <$> take (N - length rows) (unseen_first seen cands)).
Proof.
  revert rows seen.
  induction cands as [|[[root v] g] rest IH]; intros rows seen Hlen.
  - exists seen. rewrite unseen_first_nil, take_nil. simpl.
    split; [by rewrite app_nil_r|]. intros x. by rewrite orb_false_r.
  - destruct (set_in v seen) eqn:Hv.
    + rewrite first_pass_cons_seen, unseen_first_cons_seen by done.
      by apply IH.
    + rewrite first_pass_cons_fresh, unseen_first_cons_fresh by done.
      unfold cand_inf at 1 3; simpl.
      set (row := round_robin_row (length rows) (root, v, g)).
      assert (length (rows ++ [row]) = Datatypes.S (length rows)) as Hl
        by (rewrite length_app; simpl; lia).
      destruct (N <=? length (rows ++ [row])) eqn:Hbreak.
      * apply Nat.leb_le in Hbreak.
        replace (N - length rows) with 1 by lia.
        exists (set_add v seen). simpl.
        split; [done|]. intros x. rewrite set_in_add.
        destruct (String.eqb_spec x v) as [->|Hne]; simpl.
        -- rewrite bool_decide_eq_true_2 by left. by rewrite orb_true_r.
        -- rewrite bool_decide_eq_false_2; [by rewrite orb_false_r|].
           by intros [?|?%elem_of_nil]%elem_of_cons.
      * apply Nat.leb_gt in Hbreak.
        destruct (IH (rows ++ [row]) (set_add v seen) Hbreak)
          as (seen' & Hrun & Hseen').
        rewrite Hl in Hrun, Hseen'. exists seen'. rewrite Hrun.
        replace (N - length rows) with (Datatypes.S (N - Datatypes.S (length rows)))
          by lia.
        cbn [take round_robin_rows_from fmap list_fmap].
        split; [by rewrite <- app_assoc|].
        intros x. rewrite Hseen', set_in_add.
        destruct (String.eqb_spec x v) as [->|Hne]; simpl.
        -- rewrite bool_decide_eq_true_2 by left. by rewrite orb_true_r.
        -- f_equal. apply bool_decide_ext. rewrite elem_of_cons.
           split; [by right | by intros [?|?]].

Qed.
End SelectorFacts.

Section SelectorRuns.
Context {S : Type} `{PySet S}.
Variable N : nat.

(** The [while] loop is not entered once the target is reached. *)
Lemma wrap_loop_at_target fuel cands rows (seen : S) i :
  N ≤ length rows →
  wrap_loop N fuel cands (rows, seen, i) = Done (rows, seen, i).
Proof.
  intros Hlen. apply Nat.leb_le in Hlen.
  destruct fuel; cbn [wrap_loop fst]; by rewrite Hlen.
Qed.

Lemma wrap_body_empty (st : list Row * S * nat) :
  wrap_body [] st = Raise ZeroDivisionError.
Proof. by destruct st as [[rows seen] i]. Qed.

(** When every headword of the pool is in [seen], a turn of the [while]
    body only moves the index. *)
Lemma wrap_body_exhausted cands rows (seen : S) i :
  cands ≠ [] →
  (∀ c, c ∈ cands → set_in (cand_inf c) seen = true) →
  wrap_body cands (rows, seen, i) = Done (rows, seen, i + 1).
Proof.
  intros Hne Hall. unfold wrap_body.
  destruct (length cands) as [|n] eqn:Hlen.
  - by destruct cands.
  - destruct (lookup_lt_is_Some_2 cands (i mod Datatypes.S n)) as [c Hc].
    { rewrite Hlen. apply Nat.mod_upper_bound. lia. }
    rewrite Hc. destruct c as [[root v] g].
    apply list_elem_of_lookup_2, Hall in Hc.
    unfold cand_inf in Hc; simpl in Hc. by rewrite Hc.
Qed.

(** ... and so the loop, entered short of the target, never leaves. *)
Lemma wrap_loop_exhausted cands rows (seen : S) :
  length rows < N →
  cands ≠ [] →
  (∀ c, c ∈ cands → set_in (cand_inf c) seen = true) →
  ∀ fuel i, wrap_loop N fuel cands (rows, seen, i) = OutOfFuel.
Proof.
  intros Hlen Hne Hall. apply Nat.leb_gt in Hlen.
  induction fuel as [|fuel IH]; intros i; cbn [wrap_loop fst]; rewrite Hlen.
  - done.
  - rewrite wrap_body_exhausted by done. apply IH.
Qed.

(** The first loop alone, from the initial state. *)
Lemma first_pass_initial cands :
  0 < N →
  ∃ seen : S,
    first_pass N cands [] set_new
    = Done (round_robin_rows (take N (keep_first_by_headword cands)), seen) ∧
    ∀ x, set_in x seen = true
         ↔ x ∈ cand_inf <$> take N (keep_first_by_headword cands).
Proof.
  intros HN.
  destruct (first_pass_from N cands [] set_new) as (seen & Hrun & Hseen);
    [simpl; lia|].
  exists seen. revert Hrun Hseen.
  rewrite unseen_first_new. simpl. rewrite Nat.sub_0_r.
  intros Hrun Hseen. split; [done|].
  intros x. rewrite Hseen, set_in_new. simpl. apply bool_decide_eq_true.
Qed.

(** A pool with at least [N] distinct headwords: the selector returns the
    first [N] of them, whatever the fuel. *)
Lemma select_rows_enough cands :
  0 < N →
  N ≤ length (keep_first_by_headword cands) →
  ∀ fuel, ∃ seen : S,
    select_rows N fuel cands
    = Done (round_robin_rows (take N (keep_first_by_headword cands)), seen) ∧
    ∀ x, set_in x seen = true
         ↔ x ∈ cand_inf <$> take N (keep_first_by_headword cands).
Proof.
  intros HN Hlen fuel.
  destruct (first_pass_initial cands HN) as (seen & Hrun & Hseen).
  exists seen. split; [|done].
  unfold select_rows. rewrite Hrun. cbn.
  rewrite wrap_loop_at_target; [done|].
  unfold round_robin_rows.
  rewrite round_robin_rows_from_length, length_take. lia.
Qed.

(** A non-empty pool with fewer than [N] distinct headwords: no amount of
    fuel lets the selector return. *)
Lemma select_rows_short cands :
  0 < N →
  cands ≠ [] →
  length (keep_first_by_headword cands) < N →
  ∀ fuel, select_rows (S:=S) N fuel cands = OutOfFuel.
Proof.
  intros HN Hne Hlen fuel.
  destruct (first_pass_initial cands HN) as (seen & Hrun & Hseen).
  unfold select_rows. rewrite Hrun. cbn.
  rewrite wrap_loop_exhausted; [done| |done|].
  - unfold round_robin_rows.
    rewrite round_robin_rows_from_length, length_take. lia.
  - intros c Hc. apply Hseen. rewrite take_ge by lia.
    apply keep_first_headwords, list_elem_of_fmap. by exists c.
Qed.

(** The empty pool: the first turn of the [while] loop divides by zero. *)
Lemma select_rows_empty fuel :
  0 < N →
  select_rows (S:=S) N (Datatypes.S fuel) [] = Raise ZeroDivisionError.
Proof.
  intros HN. unfold select_rows. cbn.
  destruct (N <=? 0) eqn:Hle; [apply Nat.leb_le in Hle; lia|done].
Qed.

(** Whenever the selector returns, it has returned the first [N] distinct
    headwords of the pool. *)
Lemma select_rows_done cands fuel rows (seen : S) :
  0 < N →
  select_rows N fuel cands = Done (rows, seen) →
  N ≤ length (keep_first_by_headword cands) ∧
  rows = round_robin_rows (take N (keep_first_by_headword cands)) ∧
  ∀ x, set_in x seen = true
       ↔ x ∈ cand_inf <$> take N (keep_first_by_headword cands).
Proof.
  intros HN Hrun.
  destruct (decide (N ≤ length (keep_first_by_headword cands))) as [Hlen|Hlen].
  - destruct (select_rows_enough cands HN Hlen fuel) as (seen' & Hrun' & Hseen).
    rewrite Hrun in Hrun'. injection Hrun' as -> ->. done.
  - destruct cands as [|c cands].
    + destruct fuel; [|by rewrite select_rows_empty in Hrun].
      unfold select_rows in Hrun. cbn in Hrun.
      destruct (N <=? 0) eqn:Hle; [apply Nat.leb_le in Hle; lia|done].
    + rewrite select_rows_short in Hrun; [done..|lia].
Qed.
End SelectorRuns.

(** Independence of the layout of [seen]: the rows depend on the pool and
    on the target only. *)
Lemma select_rows_layout {S1 S2 : Type} `{PySet S1} `{PySet S2}
    (N fuel : nat) (cands : list Candidate) :
  fst <$> select_rows (S:=S1) N fuel cands
  = fst <$> select_rows (S:=S2) N fuel cands.
Proof.
  destruct (decide (0 < N)) as [HN|HN].
  - destruct (decide (N ≤ length (keep_first_by_headword cands))) as [Hlen|Hlen].
    + destruct (select_rows_enough (S:=S1) N cands HN Hlen fuel) as (s1 & -> & _).
      destruct (select_rows_enough (S:=S2) N cands HN Hlen fuel) as (s2 & -> & _).
      done.
    + destruct cands as [|c cands].
      * destruct fuel; [|by rewrite !select_rows_empty].
        unfold select_rows. cbn.
        destruct (N <=? 0) eqn:Hle; [apply Nat.leb_le in Hle; lia|done].
      * rewrite !select_rows_short; [done|done..|lia|done|done|lia].
  - assert (N = 0) as -> by lia.
    destruct cands as [|[[root v] g] cands].
    + unfold select_rows. cbn. by destruct fuel.
    + unfold select_rows.
      rewrite !first_pass_cons_fresh by apply set_in_new.
      cbn. by destruct fuel.
Qed.

(** ** Packaging *)

Section PackagingFacts.
Variable safe_name : string → string.
Variable synth_audio_gtts : string → string → bool.
Variable synth_audio_espeak : string → string → bool.

(** One turn of the loop of [build_anki], by cases. *)
Lemma build_anki_step_cases media_dir audio_mode notes media written i r :
  build_anki_step safe_name synth_audio_gtts synth_audio_espeak
    media_dir audio_mode (notes, media, written) i r
  = if negb (synthesis_succeeds safe_name synth_audio_gtts synth_audio_espeak
               media_dir audio_mode i r)
    then Raise SynthesisFailure
    else if contains_space (root_tag r) then Raise ValueError
    else Done (notes ++ [note_of_row
                           (audio_reference safe_name audio_mode i r) r],
               media ++ listed_from safe_name media_dir audio_mode i [r],
               written ++ written_from safe_name media_dir audio_mode i [r]).
Proof.
  unfold build_anki_step, synthesis_succeeds, audio_reference, note_of_row,
    listed_from, written_from.
  cbn [media_from]. unfold media_file_name.
  destruct (String.eqb_spec audio_mode "none") as [->|Hnone].
  - cbn. destruct (contains_space (root_tag r)); [reflexivity|].
    by rewrite !app_nil_r.
  - cbn [negb].
    destruct (audio_mode =? "gtts")%string.
    + destruct (synth_audio_gtts _ _); [|reflexivity]. cbn.
      by destruct (contains_space (root_tag r)).
    + destruct (audio_mode =? "espeak")%string.
      * destruct (synth_audio_espeak _ _); [|reflexivity]. cbn.
        by destruct (contains_space (root_tag r)).
      * cbn. destruct (contains_space (root_tag r)); [reflexivity|].
        by rewrite !app_nil_r.
Qed.

Lemma listed_from_cons media_dir audio_mode i r rows :
  listed_from safe_name media_dir audio_mode i (r :: rows)
  = listed_from safe_name media_dir audio_mode i [r]
    ++ listed_from safe_name media_dir audio_mode (Datatypes.S i) rows.
Proof. unfold listed_from. by destruct (audio_mode =? "none")%string. Qed.

Lemma written_from_cons media_dir audio_mode i r rows :
  written_from safe_name media_dir audio_mode i (r :: rows)
  = written_from safe_name media_dir audio_mode i [r]
    ++ written_from safe_name media_dir audio_mode (Datatypes.S i) rows.
Proof.
  unfold written_from.
  by destruct ((audio_mode =? "gtts")%string || (audio_mode =? "espeak")%string).
Qed.

(** The whole loop: it stops on the first row whose synthesis fails or
    whose tag has a space; without such a row it has built one note per
    row and listed, unless audio is disabled, one media file per row. *)
Lemma build_anki_loop_cases media_dir audio_mode rows :
  ∀ notes media written i,
    build_anki_loop safe_name synth_audio_gtts synth_audio_espeak
      media_dir audio_mode (notes, media, written) i rows
    = match first_failure safe_name synth_audio_gtts synth_audio_espeak
              media_dir audio_mode i rows with
      | Some e => Raise e
      | None =>
          Done (notes ++ notes_from safe_name audio_mode i rows,
                media ++ listed_from safe_name media_dir audio_mode i rows,
                written ++ written_from safe_name media_dir audio_mode i rows)
      end.
Proof.
  induction rows as [|r rows IH]; intros notes media written i.
  - unfold listed_from, written_from. simpl.
    destruct (audio_mode =? "none")%string;
      destruct ((audio_mode =? "gtts")%string || (audio_mode =? "espeak")%string);
      by rewrite !app_nil_r.
  - cbn [build_anki_loop first_failure notes_from].
    rewrite build_anki_step_cases.
    destruct (negb (synthesis_succeeds _ _ _ _ _ _ _)); [reflexivity|].
    destruct (contains_space (root_tag r)); [reflexivity|].
    cbn. rewrite IH, Nat.add_1_r.
    destruct (first_failure _ _ _ _ _ _ _); [reflexivity|].
    rewrite (listed_from_cons media_dir audio_mode i r rows),
      (written_from_cons media_dir audio_mode i r rows), <- !app_assoc.
    reflexivity.
Qed.


Lemma notes_from_length audio_mode i rows :
  length (notes_from safe_name audio_mode i rows) = length rows.
Proof.
  revert i. induction rows as [|r rows IH]; intros i; simpl; [done|].
  by rewrite IH.
Qed.

Lemma notes_from_fields audio_mode i rows :
  note_row_fields <$> notes_from safe_name audio_mode i rows
  = row_fields <$> rows.
Proof.
  revert i. induction rows as [|r rows IH]; intros i; simpl; [done|].
  by rewrite IH.
Qed.

Lemma notes_from_no_audio i rows :
  Forall (λ n, note_audio n = Some "") (notes_from safe_name "none" i rows).
Proof.
  revert i. induction rows as [|r rows IH]; intros i; simpl; constructor;
    [reflexivity|apply IH].
Qed.

(** With audio disabled the loop stops only on a tag with a space. *)
Lemma first_failure_no_audio media_dir i rows :
  Forall (λ r, contains_space (root_tag r) = false) rows →
  first_failure safe_name synth_audio_gtts synth_audio_espeak
    media_dir "none" i rows = None.
Proof.
  intros Hrows. revert i.
  induction Hrows as [|r rows Hr _ IH]; intros i; [done|].
  cbn [first_failure]. unfold synthesis_succeeds. cbn. by rewrite Hr, IH.
Qed.

(** A listed file that a synthesizer has written is there. *)
Lemma written_files_exist (file_exists : string → bool) (l : list string) :
  forallb (λ path, file_exists path || existsb (String.eqb path) l) l = true.
Proof.
  apply forallb_forall. intros path Hin.
  apply orb_true_iff. right. apply existsb_exists.
  exists path. split; [done|apply String.eqb_refl].
Qed.

(** [build_anki] as a whole. *)
Lemma build_anki_cases (media_dir_of : string → string)
    (file_exists : string → bool) deck_name rows out_apkg audio_mode :
  build_anki safe_name synth_audio_gtts synth_audio_espeak media_dir_of
    file_exists deck_name rows out_apkg audio_mode
  = match first_failure safe_name synth_audio_gtts synth_audio_espeak
            (media_dir_of out_apkg) audio_mode 0 rows with
    | Some e => Raise e
    | None =>
        if forallb (λ path,
             file_exists path
             || existsb (String.eqb path)
                  (written_from safe_name (media_dir_of out_apkg)
                     audio_mode 0 rows))
             (listed_from safe_name (media_dir_of out_apkg) audio_mode 0 rows)
        then Done (notes_from safe_name audio_mode 0 rows,
                   listed_from safe_name (media_dir_of out_apkg)
                     audio_mode 0 rows)
        else Raise FileNotFoundError
    end.
Proof.
  unfold build_anki. rewrite build_anki_loop_cases.
  by destruct (first_failure _ _ _ _ _ _ _).
Qed.

(** When [build_anki] returns, it returns what the loop has built. *)
Lemma build_anki_done (media_dir_of : string → string)
    (file_exists : string → bool) deck_name rows out_apkg audio_mode
    notes media :
  build_anki safe_name synth_audio_gtts synth_audio_espeak media_dir_of
    file_exists deck_name rows out_apkg audio_mode = Done (notes, media) →
  first_failure safe_name synth_audio_gtts synth_audio_espeak
    (media_dir_of out_apkg) audio_mode 0 rows = None ∧
  notes = notes_from safe_name audio_mode 0 rows ∧
  media = listed_from safe_name (media_dir_of out_apkg) audio_mode 0 rows ∧
  forallb (λ path,
     file_exists path
     || existsb (String.eqb path)
          (written_from safe_name (media_dir_of out_apkg) audio_mode 0 rows))
     media = true.
Proof.
  rewrite build_anki_cases.
  destruct (first_failure _ _ _ _ _ _ _); [done|].
  destruct (forallb _ _) eqn:Hfiles; [|done].
  intros [= <- <-]. done.
Qed.

(** With audio disabled and no space in a tag [build_anki] returns, having
    listed no media file and left every audio reference empty. *)
Lemma build_anki_no_audio (media_dir_of : string → string)
    (file_exists : string → bool) deck_name rows out_apkg :
  Forall (λ r, contains_space (root_tag r) = false) rows →
  build_anki safe_name synth_audio_gtts synth_audio_espeak media_dir_of
    file_exists deck_name rows out_apkg "none"
  = Done (notes_from safe_name "none" 0 rows, []).
Proof.
  intros Hrows. rewrite build_anki_cases, first_failure_no_audio by done.
  reflexivity.
Qed.
End PackagingFacts.

(** ** The shipped tables *)

Lemma shipped_pool_size {S : Type} `{PySet S} :
  length (build_candidate_forms BASE_VERBS CURATED_DERIVS PREFIXES) = 1323.
Proof.
  rewrite build_candidate_forms_spec,
    <- (build_candidate_forms_spec (S:=list string)).
  by vm_compute.
Qed.

Lemma build_candidate_forms_NoDup {S : Type} `{PySet S}
    base_verbs curated_derivs prefixes :
  NoDup (cand_inf <$> build_candidate_forms base_verbs curated_derivs prefixes).
Proof. rewrite build_candidate_forms_spec. apply keep_first_NoDup. Qed.

(** No tag of the shipped pool has a space. *)
Lemma shipped_tags_no_space {S : Type} `{PySet S} :
  Forall (λ c, contains_space (cand_root c) = false)
         (build_candidate_forms BASE_VERBS CURATED_DERIVS PREFIXES).
Proof.
  rewrite build_candidate_forms_spec,
    <- (build_candidate_forms_spec (S:=list string)).
  compute_done.
Qed.

(** ** Facts used by the statements below *)

Lemma string_length_app (a b : string) :
  String.length (a +:+ b) = String.length a + String.length b.
Proof.
  induction a as [|c a IH]; [done|].
  rewrite string_app_cons. simpl. by rewrite IH.
Qed.

(** Only the empty prefix gives back the headword. *)
Lemma degenerate_prefix (p inf : string) : p +:+ inf = inf ↔ p = "".
Proof.
  split; [|by intros ->].
  intros Heq. apply (f_equal String.length) in Heq.
  rewrite string_length_app in Heq.
  destruct p; [done|]. simpl in Heq. lia.
Qed.

(** The slice is an initial part of the string. *)
Lemma py_take_chars_prefix n s : ∃ rest, s = py_take_chars n s +:+ rest.
Proof.
  revert n. induction s as [|a s IH]; intros n; simpl.
  - by exists "".
  - destruct (utf8_continuation a).
    + destruct (IH n) as [rest Hrest]. exists rest.
      by rewrite string_app_cons, <- Hrest.
    + destruct n as [|n].
      * by exists (String a s).
      * destruct (IH n) as [rest Hrest]. exists rest.
        by rewrite string_app_cons, <- Hrest.
Qed.

(** On a string of one-byte characters the slice is the first bytes. *)
Lemma py_take_chars_ascii n a s :
  utf8_continuation a = false →
  py_take_chars (Datatypes.S n) (String a s) = String a (py_take_chars n s).
Proof. intros Ha. simpl. by rewrite Ha. Qed.

Lemma fallback_tag_nonempty (s : string) : s +:+ "-" ≠ "".
Proof.
  intros Heq. apply (f_equal String.length) in Heq.
  rewrite string_length_app in Heq. simpl in Heq. lia.
Qed.

Section TableFacts.
Variable base_verbs : list Candidate.
Variable curated_derivs : list (string * list (string * string)).
Variable prefixes : list string.

(** The tag of a key is the tag of the first base entry with that
    headword. *)
Lemma resolve_root_first before r key g after :
  base_verbs = before ++ (r, key, g) :: after →
  key ∉ cand_inf <$> before →
  resolve_root base_verbs key = r.
Proof.
  intros -> Hfirst. unfold resolve_root.
  induction before as [|[[r' v'] g'] before IH]; simpl.
  - by rewrite String.eqb_refl.
  - rewrite fmap_cons in Hfirst.
    apply not_elem_of_cons in Hfirst as [Hne Hfirst].
    unfold cand_inf in Hne; simpl in Hne.
    destruct (String.eqb_spec v' key) as [->|_]; [done|]. by apply IH.
Qed.

(** No base entry with that headword: the fallback. *)
Lemma resolve_root_fallback key :
  key ∉ cand_inf <$> base_verbs →
  resolve_root base_verbs key = py_take_chars 3 key +:+ "-".
Proof.
  intros Hnone. unfold resolve_root.
  induction base_verbs as [|[[r' v'] g'] l IH]; simpl; [done|].
  rewrite fmap_cons in Hnone.
  apply not_elem_of_cons in Hnone as [Hne Hnone].
  unfold cand_inf in Hne; simpl in Hne.
  destruct (String.eqb_spec v' key) as [->|_]; [done|]. by apply IH.
Qed.

Lemma spec_derived_segment_elem c :
  c ∈ spec_derived_segment base_verbs curated_derivs ↔
  ∃ key pairs v g,
    (key, pairs) ∈ curated_derivs ∧ (v, g) ∈ pairs ∧
    c = (resolve_root base_verbs key, v, g).
Proof.
  unfold spec_derived_segment. rewrite list_elem_of_bind. split.
  - intros ([key pairs] & ([v g] & -> & Hvg)%list_elem_of_fmap & Hkey).
    by exists key, pairs, v, g.
  - intros (key & pairs & v & g & Hkey & Hvg & ->).
    exists (key, pairs). split; [|done].
    apply list_elem_of_fmap. by exists (v, g).
Qed.

Lemma spec_prefixed_of_elem b c :
  c ∈ spec_prefixed_of prefixes b ↔
  ∃ p, p ∈ prefixes ∧ p +:+ cand_inf b ≠ cand_inf b ∧
       c = (cand_root b, p +:+ cand_inf b, cand_gloss b +:+ " (prefixed)").
Proof.
  unfold spec_prefixed_of. rewrite list_elem_of_fmap. split.
  - intros (p & -> & [Hne Hp]%list_elem_of_filter). by exists p.
  - intros (p & Hp & Hne & ->). exists p. split; [done|].
    by apply list_elem_of_filter.
Qed.

Lemma spec_prefixed_segment_elem c :
  c ∈ spec_prefixed_segment base_verbs curated_derivs prefixes ↔
  ∃ b p,
    b ∈ base_verbs ∧ dict_contains curated_derivs (cand_inf b) = false ∧
    p ∈ prefixes ∧ p +:+ cand_inf b ≠ cand_inf b ∧
    c = (cand_root b, p +:+ cand_inf b, cand_gloss b +:+ " (prefixed)").
Proof.
  unfold spec_prefixed_segment. rewrite list_elem_of_bind. split.
  - intros (b & (p & Hp & Hne & ->)%spec_prefixed_of_elem
              & [Hcur Hb]%list_elem_of_filter).
    exists b, p. split_and!; try done.
    rewrite dict_contains_spec. by apply bool_decide_eq_false.
  - intros (b & p & Hb & Hcur & Hp & Hne & ->).
    exists b. split.
    + apply spec_prefixed_of_elem. by exists p.
    + apply list_elem_of_filter. split; [|done].
      rewrite dict_contains_spec in Hcur. by apply bool_decide_eq_false in Hcur.
Qed.
End TableFacts.

(** A base entry with curated derivatives adds nothing in the third loop:
    the loop runs as if the entry were not in the list. *)
Lemma append_prefixed_skip before b after curated_derivs prefixes cs :
  dict_contains curated_derivs (cand_inf b) = true →
  append_prefixed (before ++ b :: after) curated_derivs prefixes cs
  = append_prefixed (before ++ after) curated_derivs prefixes cs.
Proof.
  intros Hcur. unfold append_prefixed. rewrite !fold_left_app.
  destruct b as [[root inf] gloss]. unfold cand_inf in Hcur; simpl in Hcur.
  cbn [fold_left]. by rewrite Hcur.
Qed.

(** Rows with pairwise distinct headwords: a headword has a row exactly
    when it has one row. *)
Lemma one_row_per_headword (rows : list Row) v :
  NoDup (russian <$> rows) →
  v ∈ russian <$> rows ↔ length (filter (λ r, russian r = v) rows) = 1.
Proof.
  induction rows as [|r rows IH]; simpl.
  - intros _. split; [by intros ?%elem_of_nil|done].
  - intros [Hr Hrows]%NoDup_cons. rewrite elem_of_cons.
    destruct (decide (russian r = v)) as [<-|Hne].
    + rewrite filter_cons_True by done. simpl.
      split; [intros _|by left]. f_equal.
      destruct (filter (λ r0, russian r0 = russian r) rows) as [|r' k] eqn:Hk;
        [done|].
      exfalso. apply Hr.
      assert (r' ∈ filter (λ r0, russian r0 = russian r) rows) as Hin
        by (rewrite Hk; left).
      apply list_elem_of_filter in Hin as [<- Hin].
      apply list_elem_of_fmap. by exists r'.
    + rewrite filter_cons_False by done. rewrite <- IH by done.
      split; [by intros [?|?]|by right].
Qed.

Section SelectorUniqueness.
Context {S : Type} `{PySet S}.

(** The rows a run returns have pairwise distinct headwords, and [seen]
    holds exactly the headwords that have a row. *)
Lemma select_rows_unique N fuel cands rows (seen : S) :
  0 < N →
  select_rows N fuel cands = Done (rows, seen) →
  NoDup (russian <$> rows) ∧
  ∀ v, set_in v seen = true ↔ length (filter (λ r, russian r = v) rows) = 1.
Proof.
  intros HN Hrun.
  apply select_rows_done in Hrun as (_ & -> & Hseen); [|done].
  assert (NoDup (russian <$>
            round_robin_rows (take N (keep_first_by_headword cands)))) as Hnd.
  { unfold round_robin_rows. rewrite round_robin_rows_from_russian.
    eapply sublist_NoDup; [apply (keep_first_NoDup cands)|].
    apply fmap_sublist, sublist_take. }
  split; [done|]. intros v.
  rewrite Hseen, <- one_row_per_headword by done.
  unfold round_robin_rows. by rewrite round_robin_rows_from_russian.
Qed.

(** The pool of the shipped tables holds its 1000 rows. *)
Lemma shipped_rows fuel :
  ∃ seen : S,
    select_rows 1000 fuel
      (build_candidate_forms BASE_VERBS CURATED_DERIVS PREFIXES)
    = Done (round_robin_rows
              (take 1000
                 (build_candidate_forms BASE_VERBS CURATED_DERIVS PREFIXES)),
            seen) ∧
    ∀ x, set_in x seen = true
         ↔ x ∈ cand_inf <$>
               take 1000
                 (build_candidate_forms BASE_VERBS CURATED_DERIVS PREFIXES).
Proof.
  pose proof (select_rows_enough (S:=S) 1000
    (build_candidate_forms BASE_VERBS CURATED_DERIVS PREFIXES)) as Hsel.
  pose proof (build_candidate_forms_NoDup (S:=S)
    BASE_VERBS CURATED_DERIVS PREFIXES) as Hnd.
  pose proof (shipped_pool_size (S:=S)) as Hsize.
  remember (build_candidate_forms BASE_VERBS CURATED_DERIVS PREFIXES) as pool.
  rewrite (keep_first_id pool) in Hsel by done.
  apply Hsel; lia.
Qed.
End SelectorUniqueness.

(** * The claims *)

(** C1.  A pool with at least 1000 distinct headwords gives exactly 1000
    rows, whatever the fuel.  A pool with fewer does not give the smaller
    row set the claim asks for: the [while] loop of [main] has no exit for
    that case.  With a non-empty pool no amount of fuel lets the selector
    return, and with the empty pool the first turn raises.  So it is with
    the one base verb ["делать"], no curated derivative and the shipped
    prefixes, a pool of 16 headwords. *)
Theorem C1_small_pool_never_returns {S : Type} `{PySet S} :
  (∀ cands fuel,
      1000 ≤ length (keep_first_by_headword cands) →
      ∃ rows (seen : S),
        select_rows 1000 fuel cands = Done (rows, seen) ∧ length rows = 1000) ∧
  (∀ cands fuel,
      cands ≠ [] →
      length (keep_first_by_headword cands) < 1000 →
      select_rows (S:=S) 1000 fuel cands = OutOfFuel) ∧
  (∀ fuel,
      select_rows (S:=S) 1000 (Datatypes.S fuel) [] = Raise ZeroDivisionError) ∧
  length (build_candidate_forms (S:=S)
            [("дел-", "делать", "to do; to make")] [] PREFIXES) = 16 ∧
  (∀ fuel,
      select_rows (S:=S) 1000 fuel
        (build_candidate_forms [("дел-", "делать", "to do; to make")] [] PREFIXES)
      = OutOfFuel).
Proof.
  assert (0 < 1000) as HN by lia.
  assert (length (build_candidate_forms (S:=S)
            [("дел-", "делать", "to do; to make")] [] PREFIXES) = 16) as Hsmall.
  { rewrite build_candidate_forms_spec. by vm_compute. }
  split_and!.
  - intros cands fuel Hlen.
    destruct (select_rows_enough (S:=S) 1000 cands HN Hlen fuel)
      as (seen & Hrun & _).
    eexists _, seen. split; [exact Hrun|].
    unfold round_robin_rows.
    rewrite round_robin_rows_from_length, length_take. lia.
  - intros cands fuel Hne Hlen. by apply select_rows_short.
  - intros fuel. by apply select_rows_empty.
  - exact Hsmall.
  - intros fuel.
    remember (build_candidate_forms
                [("дел-", "делать", "to do; to make")] [] PREFIXES) as pool.
    apply select_rows_short; [done| |].
    + intros ->. discriminate Hsmall.
    + pose proof (keep_first_length pool). lia.
Qed.

(** C2.  In the rows generated from the shipped tables with target 1000
    the headwords are pairwise distinct, and a headword is selected (it is
    in [seen]) exactly when it has one row; the run returns 1000 rows,
    which are the rows [main] writes. *)
Theorem C2_headwords_pairwise_distinct {S : Type} `{PySet S} (fuel : nat) :
  ∃ rows (seen : S),
    select_rows 1000 fuel
      (build_candidate_forms BASE_VERBS CURATED_DERIVS PREFIXES)
    = Done (rows, seen) ∧
    length rows = 1000 ∧
    NoDup (russian <$> rows) ∧
    (∀ i j ri rj, rows !! i = Some ri → rows !! j = Some rj →
                  russian ri = russian rj → i = j) ∧
    (∀ v, set_in v seen = true
          ↔ length (filter (λ r, russian r = v) rows) = 1) ∧
    (∀ safe_name gtts espeak media_dir_of file_exists args,
        csv_rows <$> main safe_name gtts espeak media_dir_of file_exists fuel args
        = Done rows).
Proof.
  destruct (shipped_rows fuel) as (seen & Hrun & Hseen).
  pose proof (shipped_pool_size (S:=S)) as Hsize.
  assert (∀ safe_name gtts espeak media_dir_of file_exists args,
            csv_rows <$> main safe_name gtts espeak media_dir_of file_exists
                           fuel args
            = Done (round_robin_rows
                      (take 1000
                         (build_candidate_forms BASE_VERBS CURATED_DERIVS
                            PREFIXES)))) as Hmain.
  { intros. unfold main. rewrite Hrun. reflexivity. }
  remember (build_candidate_forms BASE_VERBS CURATED_DERIVS PREFIXES) as pool.
  exists (round_robin_rows (take 1000 pool)), seen.
  destruct (select_rows_unique 1000 fuel _ _ _ ltac:(lia) Hrun) as [Hnd Hone].
  split_and!.
  - exact Hrun.
  - unfold round_robin_rows.
    rewrite round_robin_rows_from_length, length_take. lia.
  - exact Hnd.
  - intros i j ri rj Hi Hj Heq.
    eapply (NoDup_lookup _ i j (russian ri)); [exact Hnd|..].
    + rewrite list_lookup_fmap, Hi. reflexivity.
    + rewrite list_lookup_fmap, Hj, Heq. reflexivity.
  - exact Hone.
  - exact Hmain.
Qed.

(** Facts about the shipped tables used by C3, checked by evaluation. *)
Lemma shipped_voiti_emitted :
  ("ид-", "войти", "to enter (pfv)")
    ∈ emitted_candidates BASE_VERBS CURATED_DERIVS PREFIXES.
Proof. compute_done. Qed.

Lemma shipped_idti_not_prefixed :
  Forall (λ c, Forall (λ p, cand_inf c ≠ p +:+ "идти") PREFIXES)
         (emitted_candidates BASE_VERBS CURATED_DERIVS PREFIXES).
Proof. compute_done. Qed.

(** No candidate of the shipped tables is the mechanical form (prefix plus
    headword, gloss with the marker) of a base entry with curated
    derivatives. *)
Lemma shipped_curated_not_prefixed :
  Forall (λ c,
    Forall (λ b,
      Forall (λ p,
        c ≠ (cand_root b, p +:+ cand_inf b, cand_gloss b +:+ " (prefixed)"))
        PREFIXES)
      (filter (λ b, dict_contains CURATED_DERIVS (cand_inf b) = true) BASE_VERBS))
    (emitted_candidates BASE_VERBS CURATED_DERIVS PREFIXES).
Proof. compute_done. Qed.

Lemma shipped_voiti_returned :
  ("ид-", "войти", "to enter (pfv)")
    ∈ spec_form_generator BASE_VERBS CURATED_DERIVS PREFIXES.
Proof. compute_done. Qed.

(** C3.  A base entry whose headword is a key of the curated-derivative
    table adds nothing in the prefixing loop: the loop runs as if the entry
    were absent, and every candidate it appends is formed from a base entry
    without curated derivatives.  For the shipped tables: ["идти"] is such
    an entry with tag ["ид-"], the triple (["ид-"], ["войти"],
    ["to enter (pfv)"]) is emitted and returned, and no emitted candidate
    has a headword of the form prefix + ["идти"]. *)
Theorem C3_curated_headwords_not_prefixed :
  (∀ base_verbs curated_derivs prefixes b,
      b ∈ base_verbs →
      dict_contains curated_derivs (cand_inf b) = true →
      (∀ before after cs,
          base_verbs = before ++ b :: after →
          append_prefixed base_verbs curated_derivs prefixes cs
          = append_prefixed (before ++ after) curated_derivs prefixes cs) ∧
      ∃ seg,
        (∀ cs, append_prefixed base_verbs curated_derivs prefixes cs = cs ++ seg) ∧
        ∀ c, c ∈ seg →
             ∃ b' p, b' ∈ base_verbs ∧ p ∈ prefixes ∧
                     dict_contains curated_derivs (cand_inf b') = false ∧
                     cand_inf b' ≠ cand_inf b ∧
                     c = (cand_root b', p +:+ cand_inf b',
                          cand_gloss b' +:+ " (prefixed)")) ∧
  (("ид-", "идти", "to go (uni-dir)") ∈ BASE_VERBS ∧
   resolve_root BASE_VERBS "идти" = "ид-" ∧
   dict_contains CURATED_DERIVS "идти" = true ∧
   ("ид-", "войти", "to enter (pfv)")
     ∈ emitted_candidates BASE_VERBS CURATED_DERIVS PREFIXES ∧
   (∀ (S : Type) (HS : PySet S),
       ("ид-", "войти", "to enter (pfv)")
         ∈ build_candidate_forms (S:=S) BASE_VERBS CURATED_DERIVS PREFIXES) ∧
   (∀ p c, p ∈ PREFIXES →
           c ∈ emitted_candidates BASE_VERBS CURATED_DERIVS PREFIXES →
           cand_inf c ≠ p +:+ "идти") ∧
   (∀ b p c, b ∈ BASE_VERBS →
             dict_contains CURATED_DERIVS (cand_inf b) = true →
             p ∈ PREFIXES →
             c ∈ emitted_candidates BASE_VERBS CURATED_DERIVS PREFIXES →
             c ≠ (cand_root b, p +:+ cand_inf b,
                  cand_gloss b +:+ " (prefixed)"))).
Proof.
  split.
  - intros base_verbs curated_derivs prefixes b Hb Hcur. split.
    + intros before after cs ->. by apply append_prefixed_skip.
    + exists (spec_prefixed_segment base_verbs curated_derivs prefixes).
      split; [apply append_prefixed_spec|].
      intros c (b' & p & Hb' & Hcur' & Hp & _ & ->)%spec_prefixed_segment_elem.
      exists b', p. split_and!; try done. intros Heq. congruence.
  - pose proof shipped_voiti_emitted as Hvoiti.
    pose proof shipped_idti_not_prefixed as Hidti.
    pose proof shipped_curated_not_prefixed as Hall.
    assert (("ид-", "идти", "to go (uni-dir)") ∈ BASE_VERBS) as Hbase
      by compute_done.
    assert (resolve_root BASE_VERBS "идти" = "ид-") as Htag by reflexivity.
    assert (dict_contains CURATED_DERIVS "идти" = true) as Hkey by reflexivity.
    remember (emitted_candidates BASE_VERBS CURATED_DERIVS PREFIXES) as emitted
      eqn:Hemitted.
    split_and!; [exact Hbase|exact Htag|exact Hkey|exact Hvoiti|..].
    + intros S HS. rewrite build_candidate_forms_spec.
      exact shipped_voiti_returned.
    + intros p c Hp Hc.
      rewrite Forall_forall in Hidti. specialize (Hidti c Hc).
      rewrite Forall_forall in Hidti. by apply Hidti.
    + intros b p c Hb Hcur Hp Hc.
      rewrite Forall_forall in Hall. specialize (Hall c Hc).
      rewrite Forall_forall in Hall.
      assert (b ∈ filter (λ b, dict_contains CURATED_DERIVS (cand_inf b) = true)
                         BASE_VERBS) as Hb'
        by (by apply list_elem_of_filter).
      specialize (Hall b Hb').
      rewrite Forall_forall in Hall. by apply Hall.
Qed.

Lemma C3_curated_headwords_not_prefixed_witness :
  ("ид-", "идти", "to go (uni-dir)") ∈ BASE_VERBS ∧
  dict_contains CURATED_DERIVS (cand_inf ("ид-", "идти", "to go (uni-dir)")) = true ∧
  ∃ seg,
    (∀ cs, append_prefixed BASE_VERBS CURATED_DERIVS PREFIXES cs = cs ++ seg) ∧
    ∀ c, c ∈ seg →
         ∃ b' p, b' ∈ BASE_VERBS ∧ p ∈ PREFIXES ∧
                 dict_contains CURATED_DERIVS (cand_inf b') = false ∧
                 cand_inf b' ≠ "идти" ∧
                 c = (cand_root b', p +:+ cand_inf b',
                      cand_gloss b' +:+ " (prefixed)").
Proof.
  assert (("ид-", "идти", "to go (uni-dir)") ∈ BASE_VERBS) as Hb
    by (do 3 right; left).
  assert (dict_contains CURATED_DERIVS
            (cand_inf ("ид-", "идти", "to go (uni-dir)")) = true) as Hcur
    by reflexivity.
  split; [exact Hb|]. split; [exact Hcur|].
  exact (proj2 (proj1 C3_curated_headwords_not_prefixed
                  BASE_VERBS CURATED_DERIVS PREFIXES
                  ("ид-", "идти", "to go (uni-dir)") Hb Hcur)).
Defined.

(** C4.  The row at position [i] of the selected sequence carries the
    phrase pair [make_phrases] gives for its headword at index [i]: the
    template is the one at index [i mod 5] of the five templates, whatever
    the headword, and each phrase is that template with the headword in its
    single slot.  At position 7 the template is the one at index 2. *)
Theorem C4_template_round_robin {S : Type} `{PySet S}
    (N fuel : nat) (cands : list Candidate) (rows : list Row) (seen : S)
    (i : nat) (r : Row) :
  0 < N →
  select_rows N fuel cands = Done (rows, seen) →
  rows !! i = Some r →
  length PHRASE_TEMPLATES = 5 ∧
  make_phrases (russian r) i = Done (phrase_ru r, literal_en r) ∧
  ∃ t_ru t_en,
    PHRASE_TEMPLATES !! (i mod 5) = Some (t_ru, t_en) ∧
    fills_single_slot t_ru (russian r) (phrase_ru r) ∧
    fills_single_slot t_en (russian r) (literal_en r) ∧
    (i = 7 → PHRASE_TEMPLATES !! 2 = Some (t_ru, t_en)).
Proof.
  intros HN Hrun Hi.
  apply select_rows_done in Hrun as (_ & -> & _); [|done].
  unfold round_robin_rows in Hi. rewrite round_robin_rows_from_lookup in Hi.
  destruct (take N (keep_first_by_headword cands) !! i) as [c|]; [|done].
  injection Hi as <-. simpl.
  split; [done|]. split.
  { rewrite make_phrases_spec. by destruct (round_robin_phrases (cand_inf c) i). }
  unfold round_robin_phrases. rewrite PHRASE_TEMPLATES_length.
  destruct (PHRASE_TEMPLATES !! (i mod 5)) as [[t_ru t_en]|] eqn:Hk.
  - exists t_ru, t_en.
    destruct (PHRASE_TEMPLATES_single_slot _ _ _ (cand_inf c) Hk) as [Hru Hen].
    split_and!; [done|exact Hru|exact Hen|].
    intros ->. exact Hk.
  - apply lookup_ge_None in Hk. rewrite PHRASE_TEMPLATES_length in Hk.
    pose proof (Nat.mod_upper_bound i 5). lia.
Qed.

Lemma C4_template_round_robin_witness :
  ∃ t_ru t_en,
    PHRASE_TEMPLATES !! (7 mod 5) = Some (t_ru, t_en) ∧
    fills_single_slot t_ru "думать" "Мы будем думать завтра." ∧
    fills_single_slot t_en "думать" "We will думать tomorrow.".
Proof.
  destruct (C4_template_round_robin (S:=list string) 8 0
              (firstn 9 BASE_VERBS)
              (round_robin_rows (firstn 8 BASE_VERBS))
              ["думать"; "смотреть"; "видеть"; "ходить"; "идти"; "говорить";
               "сказать"; "делать"]
              7
              (mkRow "дум-" "думать" "to think"
                     "Мы будем думать завтра." "We will думать tomorrow."))
    as (_ & _ & t_ru & t_en & Hk & Hru & Hen & _).
  - lia.
  - vm_compute. reflexivity.
  - vm_compute. reflexivity.
  - exists t_ru, t_en. split; [exact Hk|]. split; [exact Hru|exact Hen].
Defined.

(** C5.  The Form Generator returns the emitted sequence, which is the base
    entries in list order, then the curated derivatives in table order,
    then the prefixed forms in base-list-then-prefix-list order,
    deduplicated by headword: an element is returned exactly when it is the
    first of the emitted sequence with its headword, the returned elements
    keep their relative order, and their headwords are pairwise distinct. *)
Theorem C5_form_generator_keeps_first_occurrences {S : Type} `{PySet S}
    (base_verbs : list Candidate)
    (curated_derivs : list (string * list (string * string)))
    (prefixes : list string) :
  emitted_candidates base_verbs curated_derivs prefixes
  = base_verbs ++ spec_derived_segment base_verbs curated_derivs
               ++ spec_prefixed_segment base_verbs curated_derivs prefixes ∧
  build_candidate_forms base_verbs curated_derivs prefixes
  = keep_first_by_headword
      (emitted_candidates base_verbs curated_derivs prefixes) ∧
  build_candidate_forms base_verbs curated_derivs prefixes
    `sublist_of` emitted_candidates base_verbs curated_derivs prefixes ∧
  NoDup (cand_inf <$> build_candidate_forms base_verbs curated_derivs prefixes) ∧
  ∀ c,
    c ∈ build_candidate_forms base_verbs curated_derivs prefixes ↔
    ∃ i,
      emitted_candidates base_verbs curated_derivs prefixes !! i = Some c ∧
      ∀ j c', j < i →
              emitted_candidates base_verbs curated_derivs prefixes !! j = Some c' →
              cand_inf c' ≠ cand_inf c.
Proof.
  assert (build_candidate_forms base_verbs curated_derivs prefixes
          = keep_first_by_headword
              (emitted_candidates base_verbs curated_derivs prefixes)) as Hret
    by apply dedup_loop_spec.
  split_and!.
  - apply emitted_candidates_spec.
  - exact Hret.
  - rewrite Hret. apply keep_first_sublist.
  - apply build_candidate_forms_NoDup.
  - intros c. rewrite Hret. apply keep_first_is_first.
Qed.

(** C6.  The rows are a function of the tables and of the target alone: two
    runs of the pipeline whose [seen] sets have different layouts give the
    same answer, rows and order included, and two runs that both return,
    whatever fuel each had, return the same rows. *)
Theorem C6_pipeline_deterministic
    {S1 : Type} {H1 : PySet S1} {S2 : Type} {H2 : PySet S2}
    (base_verbs : list Candidate)
    (curated_derivs : list (string * list (string * string)))
    (prefixes : list string) (N : nat) :
  (∀ fuel,
      fst <$> select_rows (S:=S1) N fuel
                (build_candidate_forms (S:=S1) base_verbs curated_derivs prefixes)
      = fst <$> select_rows (S:=S2) N fuel
                  (build_candidate_forms (S:=S2) base_verbs curated_derivs prefixes)) ∧
  (∀ fuel1 fuel2 rows1 rows2 seen1 seen2,
      0 < N →
      select_rows (S:=S1) N fuel1
        (build_candidate_forms (S:=S1) base_verbs curated_derivs prefixes)
      = Done (rows1, seen1) →
      select_rows (S:=S2) N fuel2
        (build_candidate_forms (S:=S2) base_verbs curated_derivs prefixes)
      = Done (rows2, seen2) →
      rows1 = rows2).
Proof.
  rewrite !build_candidate_forms_spec. split.
  - intros fuel. apply select_rows_layout.
  - intros fuel1 fuel2 rows1 rows2 seen1 seen2 HN Hrun1 Hrun2.
    apply select_rows_done in Hrun1 as (_ & -> & _); [|done].
    apply select_rows_done in Hrun2 as (_ & -> & _); [|done].
    done.
Qed.

(** C7.  What the second loop appends is, for every key of the curated
    table in table order, its pairs under the tag resolved for the key.
    That tag is the tag of the first base entry whose headword is the key;
    when there is none it is the first three characters of the key
    followed by ["-"], which is not the empty string. *)
Theorem C7_derivative_tags
    (base_verbs : list Candidate)
    (curated_derivs : list (string * list (string * string))) :
  (∃ seg,
      (∀ cs, append_derivs base_verbs curated_derivs cs = cs ++ seg) ∧
      seg = ('(key, pairs) ← curated_derivs;
             (λ '(v, g), (resolve_root base_verbs key, v, g)) <$> pairs) ∧
      ∀ c, c ∈ seg ↔
           ∃ key pairs v g,
             (key, pairs) ∈ curated_derivs ∧ (v, g) ∈ pairs ∧
             c = (resolve_root base_verbs key, v, g)) ∧
  (∀ key before r g after,
      base_verbs = before ++ (r, key, g) :: after →
      key ∉ cand_inf <$> before →
      resolve_root base_verbs key = r) ∧
  (∀ key,
      key ∉ cand_inf <$> base_verbs →
      resolve_root base_verbs key = py_take_chars 3 key +:+ "-" ∧
      resolve_root base_verbs key ≠ "" ∧
      ∃ rest, key = py_take_chars 3 key +:+ rest).
Proof.
  split_and!.
  - exists (spec_derived_segment base_verbs curated_derivs).
    split_and!; [apply append_derivs_spec|done|apply spec_derived_segment_elem].
  - intros key before r g after Hbase Hfirst.
    by apply (resolve_root_first _ before r key g after).
  - intros key Hnone. rewrite resolve_root_fallback by done.
    split_and!; [done|apply fallback_tag_nonempty|apply py_take_chars_prefix].
Qed.

(** The fallback at work: a key without base entry, Cyrillic and Latin. *)
Lemma C7_derivative_tags_witness :
  append_derivs [("дел-", "делать", "to do; to make")]
                [("говорить", [("поговорить", "to have a talk (pfv)")]);
                 ("делать", [("сделать", "to do (pfv)")]);
                 ("go", [("undergo", "to undergo")])] []
  = [("гов-", "поговорить", "to have a talk (pfv)");
     ("дел-", "сделать", "to do (pfv)");
     ("go-", "undergo", "to undergo")] ∧
  resolve_root [("дел-", "делать", "to do; to make")] "говорить" = "гов-" ∧
  resolve_root [("дел-", "делать", "to do; to make")] "говорить" ≠ "".
Proof.
  split; [reflexivity|].
  destruct (proj2 (proj2 (C7_derivative_tags
                     [("дел-", "делать", "to do; to make")] []))
              "говорить") as (Htag & Hne & _).
  - by intros [?|?%elem_of_nil]%elem_of_cons.
  - split; [exact Htag|exact Hne].
Defined.

(** C8.  One row sequence serves every command line: whatever the audio
    flags, the output path, the deck name and the behaviour of the
    synthesizers, [main] writes the same 1000 rows, chosen before the audio
    mode is looked at.  Packaging reads the rows without changing them:
    when it succeeds, in any mode, the notes carry the five values of the
    rows in order; with audio disabled it always succeeds on these rows
    (none of their tags has a space), calls no synthesizer and leaves the
    audio reference empty. *)
Theorem C8_rows_independent_of_audio_mode {S : Type} `{PySet S} (fuel : nat) :
  ∃ rows,
    length rows = 1000 ∧
    (∀ safe_name gtts espeak media_dir_of file_exists args,
        main safe_name gtts espeak media_dir_of file_exists fuel args
        = Done (mkOutputs rows
                  (build_anki safe_name gtts espeak media_dir_of file_exists
                     (arg_deck_name args) rows (arg_out args)
                     (audio_mode_of args)))) ∧
    (∀ safe_name gtts espeak media_dir_of file_exists deck_name out_apkg
       audio_mode notes media,
        build_anki safe_name gtts espeak media_dir_of file_exists
          deck_name rows out_apkg audio_mode = Done (notes, media) →
        note_row_fields <$> notes = row_fields <$> rows) ∧
    (∀ safe_name gtts espeak media_dir_of file_exists deck_name out_apkg,
        ∃ notes,
          build_anki safe_name gtts espeak media_dir_of file_exists
            deck_name rows out_apkg "none" = Done (notes, []) ∧
          length notes = length rows ∧
          Forall (λ n, note_audio n = Some "") notes) ∧
    (∀ out deck_name no_audio espeak_flag,
        audio_mode_of (mkArgs out no_audio espeak_flag deck_name)
        = if no_audio then "none" else if espeak_flag then "espeak" else "gtts").
Proof.
  destruct (shipped_rows fuel) as (seen & Hrun & _).
  pose proof (shipped_pool_size (S:=S)) as Hsize.
  pose proof (shipped_tags_no_space (S:=S)) as Htags.
  assert (∀ safe_name gtts espeak media_dir_of file_exists args,
            main safe_name gtts espeak media_dir_of file_exists fuel args
            = Done (mkOutputs
                      (round_robin_rows
                         (take 1000
                            (build_candidate_forms BASE_VERBS CURATED_DERIVS
                               PREFIXES)))
                      (build_anki safe_name gtts espeak media_dir_of file_exists
                         (arg_deck_name args)
                         (round_robin_rows
                            (take 1000
                               (build_candidate_forms BASE_VERBS CURATED_DERIVS
                                  PREFIXES)))
                         (arg_out args) (audio_mode_of args)))) as Hmain.
  { intros. unfold main. rewrite Hrun. reflexivity. }
  remember (build_candidate_forms BASE_VERBS CURATED_DERIVS PREFIXES) as pool.
  assert (Forall (λ r, contains_space (root_tag r) = false)
                 (round_robin_rows (take 1000 pool))) as Hrows_tags.
  { apply Forall_lookup_2. intros k r Hk. unfold round_robin_rows in Hk.
    rewrite round_robin_rows_from_lookup in Hk.
    destruct (take 1000 pool !! k) as [c|] eqn:Hc; [|done].
    injection Hk as <-. simpl.
    apply list_elem_of_lookup_2, elem_of_take in Hc as (k' & Hc & _).
    rewrite Forall_forall in Htags. apply Htags.
    by apply list_elem_of_lookup_2 in Hc. }
  remember (round_robin_rows (take 1000 pool)) as rows eqn:Hrows.
  exists rows. split_and!.
  - rewrite Hrows. unfold round_robin_rows.
    rewrite round_robin_rows_from_length, length_take. lia.
  - exact Hmain.
  - intros safe_name gtts espeak media_dir_of file_exists deck_name out_apkg
      audio_mode notes media Hpkg.
    apply build_anki_done in Hpkg as (_ & -> & _).
    apply notes_from_fields.
  - intros safe_name gtts espeak media_dir_of file_exists deck_name out_apkg.
    exists (notes_from safe_name "none" 0 rows). split_and!.
    + by apply build_anki_no_audio.
    + apply notes_from_length.
    + apply notes_from_no_audio.
  - intros out deck_name [] []; reflexivity.
Qed.

(** C9.  Every candidate the prefixing loop appends is formed from a base
    entry and a prefix of the list: its headword is the prefix followed by
    the base headword and differs from the base headword, its gloss is the
    base gloss followed by [" (prefixed)"], its tag is the base tag.  A
    prefix that would give back the headword (only the empty one does) is
    skipped by [add_pref]. *)
Theorem C9_prefixed_candidates
    (base_verbs : list Candidate)
    (curated_derivs : list (string * list (string * string)))
    (prefixes : list string) :
  (∃ seg,
      (∀ cs, append_prefixed base_verbs curated_derivs prefixes cs = cs ++ seg) ∧
      ∀ c, c ∈ seg →
           ∃ root inf gloss p,
             (root, inf, gloss) ∈ base_verbs ∧ p ∈ prefixes ∧
             cand_inf c = p +:+ inf ∧ cand_inf c ≠ inf ∧
             cand_gloss c = gloss +:+ " (prefixed)" ∧
             cand_root c = root) ∧
  (∀ root inf gloss cs,
      add_pref prefixes root inf gloss cs
      = cs ++ ((λ p, (root, p +:+ inf, gloss +:+ " (prefixed)"))
                 <$> filter (λ p, p +:+ inf ≠ inf) prefixes)) ∧
  (∀ p root inf gloss cs,
      p +:+ inf = inf → add_pref [p] root inf gloss cs = cs) ∧
  (∀ p inf, p +:+ inf = inf ↔ p = "").
Proof.
  split_and!.
  - exists (spec_prefixed_segment base_verbs curated_derivs prefixes).
    split; [apply append_prefixed_spec|].
    intros c (b & p & Hb & _ & Hp & Hne & ->)%spec_prefixed_segment_elem.
    destruct b as [[root inf] gloss].
    exists root, inf, gloss, p. by split_and!.
  - intros root inf gloss cs. apply add_pref_spec.
  - intros p root inf gloss cs Heq. unfold add_pref. simpl.
    by rewrite Heq, String.eqb_refl.
  - apply degenerate_prefix.
Qed.

(** C10.  On a pool whose headwords are pairwise distinct the first loop
    of [main] selects the candidates in order, skipping none, up to the
    target.  With at least [N] candidates the [while] loop is not entered
    and the rows are the first [N] candidates with their round-robin
    phrases.  With fewer, and at least one, every headword is in [seen]
    after the first loop, so a turn of the [while] body appends nothing
    and the loop never leaves.  With none, the first turn of the [while]
    body raises [ZeroDivisionError] at [i % len(cands)].  The pool of the
    shipped tables is of the first kind: the rows are its first 1000
    candidates. *)
Theorem C10_selector_takes_pool_prefix {S : Type} `{PySet S}
    (N : nat) (cands : list Candidate) :
  0 < N →
  NoDup (cand_inf <$> cands) →
  (∃ seen : S,
      first_pass N cands [] set_new
      = Done (round_robin_rows (take (N `min` length cands) cands), seen) ∧
      (length cands < N →
       ∀ rows i,
         wrap_body cands (rows, seen, i)
         = match cands with
           | [] => Raise ZeroDivisionError
           | _ :: _ => Done (rows, seen, i + 1)
           end)) ∧
  (N ≤ length cands →
   ∀ fuel, ∃ seen : S,
     select_rows N fuel cands
     = Done (round_robin_rows (take (N `min` length cands) cands), seen)) ∧
  (length cands < N →
   ∀ fuel,
     select_rows (S:=S) N fuel cands
     = match cands with
       | [] => match fuel with
               | 0 => OutOfFuel
               | Datatypes.S _ => Raise ZeroDivisionError
               end
       | _ :: _ => OutOfFuel
       end) ∧
  (NoDup (cand_inf <$> build_candidate_forms (S:=S)
                         BASE_VERBS CURATED_DERIVS PREFIXES) ∧
   1000 ≤ length (build_candidate_forms (S:=S)
                    BASE_VERBS CURATED_DERIVS PREFIXES) ∧
   ∀ fuel, ∃ seen : S,
     select_rows 1000 fuel
       (build_candidate_forms BASE_VERBS CURATED_DERIVS PREFIXES)
     = Done (round_robin_rows
               (take 1000
                  (build_candidate_forms BASE_VERBS CURATED_DERIVS PREFIXES)),
             seen)).
Proof.
  intros HN Hnd.
  assert (take (N `min` length cands) cands = take N cands) as ->.
  { destruct (decide (N ≤ length cands)).
    - by rewrite Nat.min_l by done.
    - rewrite Nat.min_r, !take_ge by lia. done. }
  pose proof (keep_first_id cands Hnd) as Hid.
  split_and!.
  - destruct (first_pass_initial (S:=S) N cands HN) as (seen & Hrun & Hseen).
    rewrite Hid in Hrun, Hseen.
    exists seen. split; [exact Hrun|].
    intros Hlen rows i.
    destruct cands as [|c cs] eqn:Hcands; [apply wrap_body_empty|].
    apply wrap_body_exhausted; [discriminate|].
    intros c' Hc'. apply Hseen. rewrite take_ge by lia.
    apply list_elem_of_fmap. by exists c'.
  - intros Hlen fuel.
    destruct (select_rows_enough (S:=S) N cands HN) with (fuel := fuel)
      as (seen & Hrun & _); [by rewrite Hid|].
    rewrite Hid in Hrun. by exists seen.
  - intros Hlen fuel. destruct cands as [|c cs] eqn:Hcands.
    + destruct fuel as [|fuel]; [|by apply select_rows_empty].
      unfold select_rows. cbn.
      destruct (N <=? 0) eqn:Hle; [apply Nat.leb_le in Hle; lia|done].
    + apply select_rows_short; [done|discriminate|]. by rewrite Hid.
  - apply build_candidate_forms_NoDup.
  - pose proof (shipped_pool_size (S:=S)) as Hsize.
    remember (build_candidate_forms BASE_VERBS CURATED_DERIVS PREFIXES) as pool.
    lia.
  - intros fuel. destruct (shipped_rows (S:=S) fuel) as (seen & Hrun & _).
    exists seen. exact Hrun.
Qed.

Lemma C10_selector_takes_pool_prefix_witness :
  (∀ fuel, ∃ seen : list string,
     select_rows 2 fuel
       [("дел-", "делать", "to do; to make"); ("сказ-", "сказать", "to say (pfv)");
        ("говор-", "говорить", "to speak; to talk")]
     = Done ([mkRow "дел-" "делать" "to do; to make"
                    "Я хочу делать." "I want делать.";
              mkRow "сказ-" "сказать" "to say (pfv)"
                    "Он может сказать." "He can сказать."], seen)) ∧
  (∀ fuel,
     select_rows (S:=list string) 5 fuel
       [("дел-", "делать", "to do; to make"); ("сказ-", "сказать", "to say (pfv)");
        ("говор-", "говорить", "to speak; to talk")]
     = OutOfFuel) ∧
  (∀ fuel,
     select_rows (S:=list string) 5 (Datatypes.S fuel) []
     = Raise ZeroDivisionError).
Proof.
  assert (NoDup (cand_inf <$>
            [("дел-", "делать", "to do; to make");
             ("сказ-", "сказать", "to say (pfv)");
             ("говор-", "говорить", "to speak; to talk")])) as Hnd
    by compute_done.
  assert (NoDup (cand_inf <$> ([] : list Candidate))) as Hnil by constructor.
  split_and!.
  - apply (proj1 (proj2 (C10_selector_takes_pool_prefix (S:=list string) 2 _
                           ltac:(lia) Hnd))).
    simpl. lia.
  - intros fuel.
    apply (proj1 (proj2 (proj2 (C10_selector_takes_pool_prefix (S:=list string) 5 _
                                  ltac:(lia) Hnd)))).
    simpl. lia.
  - intros fuel.
    apply (proj1 (proj2 (proj2 (C10_selector_takes_pool_prefix (S:=list string) 5 []
                                  ltac:(lia) Hnil)))
             ltac:(simpl; lia) (Datatypes.S fuel)).
Defined.

(** C10, as the spec words it, fails at the empty pool.  It holds fewer
    than 1000 candidates and no headword twice, yet the [while] loop of
    [main] does not run for ever on it: its first turn raises
    [ZeroDivisionError] at [i % len(cands)], whatever the target. *)
Lemma C10_empty_pool_raises :
  NoDup (cand_inf <$> ([] : list Candidate)) ∧
  length ([] : list Candidate) < 1000 ∧
  wrap_body (S:=list string) [] ([], set_new, 0) = Raise ZeroDivisionError ∧
  select_rows (S:=list string) 1000 1 [] = Raise ZeroDivisionError.
Proof.
  split_and!.
  - constructor.
  - simpl. lia.
  - reflexivity.
  - apply select_rows_empty. lia.
Qed.

(** * Further properties of the script *)

(** ** The pool built by [build_candidate_forms] *)

Lemma keep_first_app (a b : list Candidate) :
  keep_first_by_headword (a ++ b)
  = keep_first_by_headword a
    ++ filter (λ c, cand_inf c ∉ cand_inf <$> a) (keep_first_by_headword b).
Proof.
  induction a as [|x a IH].
  - simpl. symmetry. induction (keep_first_by_headword b) as [|c k IHk]; [done|].
    rewrite filter_cons_True by apply not_elem_of_nil. by f_equal.
  - cbn [app keep_first_by_headword]. rewrite IH, filter_app. simpl. do 2 f_equal.
    rewrite list_filter_filter. apply list_filter_iff. intros c.
    rewrite not_elem_of_cons. tauto.
Qed.

Lemma length_bind_le {A B : Type} (f : A → list B) (l : list A) (n : nat) :
  (∀ x, length (f x) ≤ n) → length (l ≫= f) ≤ length l * n.
Proof.
  intros Hf. induction l as [|x l IH]; [done|].
  rewrite bind_cons, length_app. simpl. specialize (Hf x). lia.
Qed.

Lemma spec_derived_segment_length base_verbs curated_derivs :
  length (spec_derived_segment base_verbs curated_derivs)
  = sum_list ((λ kv, length kv.2) <$> curated_derivs).
Proof.
  unfold spec_derived_segment.
  induction curated_derivs as [|[key pairs] l IH]; [done|].
  rewrite bind_cons, length_app, length_fmap, IH. done.
Qed.

Lemma spec_prefixed_segment_length base_verbs curated_derivs prefixes :
  length (spec_prefixed_segment base_verbs curated_derivs prefixes)
  ≤ length base_verbs * length prefixes.
Proof.
  unfold spec_prefixed_segment.
  etrans; [apply (length_bind_le _ _ (length prefixes))|].
  - intros b. unfold spec_prefixed_of. rewrite length_fmap. apply length_filter.
  - apply Nat.mul_le_mono_r, length_filter.
Qed.

Section PoolFacts.
Context {S : Type} `{PySet S}.
Variable base_verbs : list Candidate.
Variable curated_derivs : list (string * list (string * string)).
Variable prefixes : list string.

(** The pool is the first occurrences among the base entries, followed by
    what the derivatives and the prefixed forms add to their headwords. *)
Lemma build_candidate_forms_split :
  build_candidate_forms base_verbs curated_derivs prefixes
  = keep_first_by_headword base_verbs
    ++ filter (λ c, cand_inf c ∉ cand_inf <$> base_verbs)
         (keep_first_by_headword
            (spec_derived_segment base_verbs curated_derivs
             ++ spec_prefixed_segment base_verbs curated_derivs prefixes)).
Proof.
  rewrite build_candidate_forms_spec. unfold spec_form_generator, spec_emitted.
  apply keep_first_app.
Qed.

Lemma build_candidate_forms_length :
  length (build_candidate_forms base_verbs curated_derivs prefixes)
  ≤ length base_verbs
    + sum_list ((λ kv, length kv.2) <$> curated_derivs)
    + length base_verbs * length prefixes.
Proof.
  rewrite build_candidate_forms_spec. unfold spec_form_generator.
  etrans; [apply keep_first_length|].
  unfold spec_emitted. rewrite !length_app, spec_derived_segment_length.
  pose proof (spec_prefixed_segment_length base_verbs curated_derivs prefixes).
  lia.
Qed.

Lemma build_candidate_forms_nonempty :
  base_verbs ≠ [] →
  build_candidate_forms base_verbs curated_derivs prefixes ≠ [].
Proof.
  intros Hne. rewrite build_candidate_forms_split.
  destruct base_verbs; [done|]. discriminate.
Qed.

Lemma resolve_root_cases key :
  resolve_root base_verbs key ∈ cand_root <$> base_verbs ∨
  resolve_root base_verbs key = py_take_chars 3 key +:+ "-".
Proof.
  unfold resolve_root.
  destruct (find _ base_verbs) as [[[r v] g]|] eqn:Hfind; [|by right].
  left. apply find_some in Hfind as [Hin _].
  apply list_elem_of_fmap. exists (r, v, g). split; [done|].
  by apply list_elem_of_In.
Qed.
End PoolFacts.

(** X1.  The pool has at most one entry per base verb, per curated pair and
    per pair of a base verb with a prefix; tables whose count falls short
    of the target make the selector run forever. *)
Theorem X1_tables_too_small_never_return {S : Type} `{PySet S}
    (base_verbs : list Candidate)
    (curated_derivs : list (string * list (string * string)))
    (prefixes : list string) (N : nat) :
  base_verbs ≠ [] →
  length base_verbs
    + sum_list ((λ kv, length kv.2) <$> curated_derivs)
    + length base_verbs * length prefixes < N →
  length (build_candidate_forms base_verbs curated_derivs prefixes)
    ≤ length base_verbs
      + sum_list ((λ kv, length kv.2) <$> curated_derivs)
      + length base_verbs * length prefixes ∧
  ∀ fuel,
    select_rows (S:=S) N fuel
      (build_candidate_forms base_verbs curated_derivs prefixes)
    = OutOfFuel.
Proof.
  intros Hne Hsmall.
  pose proof (build_candidate_forms_length (S:=S)
                base_verbs curated_derivs prefixes) as Hlen.
  split; [exact Hlen|]. intros fuel.
  apply select_rows_short; [lia| |].
  - by apply build_candidate_forms_nonempty.
  - pose proof (keep_first_length
                  (build_candidate_forms base_verbs curated_derivs prefixes)).
    lia.
Qed.

Lemma X1_tables_too_small_never_return_witness :
  length (build_candidate_forms (S:=list string)
            (firstn 50 BASE_VERBS) CURATED_DERIVS PREFIXES)
    ≤ length (firstn 50 BASE_VERBS)
      + sum_list ((λ kv, length kv.2) <$> CURATED_DERIVS)
      + length (firstn 50 BASE_VERBS) * length PREFIXES ∧
  ∀ fuel,
    select_rows (S:=list string) 1000 fuel
      (build_candidate_forms (firstn 50 BASE_VERBS) CURATED_DERIVS PREFIXES)
    = OutOfFuel.
Proof.
  apply (X1_tables_too_small_never_return (S:=list string)
           (firstn 50 BASE_VERBS) CURATED_DERIVS PREFIXES 1000).
  - discriminate.
  - apply Nat.ltb_lt. vm_compute. reflexivity.
Defined.

(** X2.  Base entries come first and win: when the base headwords are
    pairwise distinct the pool begins with the base list itself, and in
    any case a pool entry whose headword is a base headword is a base
    entry, with the base tag and gloss, whatever the curated table and the
    prefixes would give that headword. *)
Theorem X2_base_entries_first {S : Type} `{PySet S}
    (base_verbs : list Candidate)
    (curated_derivs : list (string * list (string * string)))
    (prefixes : list string) :
  (NoDup (cand_inf <$> base_verbs) →
   take (length base_verbs)
     (build_candidate_forms base_verbs curated_derivs prefixes) = base_verbs) ∧
  (∀ c, c ∈ build_candidate_forms base_verbs curated_derivs prefixes →
        cand_inf c ∈ cand_inf <$> base_verbs → c ∈ base_verbs) ∧
  (∀ v, v ∈ cand_inf <$> base_verbs →
        v ∈ cand_inf <$> build_candidate_forms base_verbs curated_derivs prefixes).
Proof.
  rewrite build_candidate_forms_split. split_and!.
  - intros Hnd. rewrite keep_first_id by done. apply take_app_length.
  - intros c [Hc|Hc]%elem_of_app Hbase.
    + eapply elem_of_sublist; [exact Hc|apply keep_first_sublist].
    + by apply list_elem_of_filter in Hc as [Hnot _].
  - intros v Hv. rewrite fmap_app, elem_of_app. left.
    by apply keep_first_headwords.
Qed.

(** X3.  Tags and headwords stay non-empty: when no base entry has an
    empty tag or headword and no curated pair an empty headword, no entry
    of the pool has one (a derivative without base entry gets the fallback
    tag, a prefixed form the tag of its base entry). *)
Theorem X3_tags_and_headwords_nonempty {S : Type} `{PySet S}
    (base_verbs : list Candidate)
    (curated_derivs : list (string * list (string * string)))
    (prefixes : list string) :
  Forall (λ b, cand_root b ≠ "" ∧ cand_inf b ≠ "") base_verbs →
  Forall (λ kv, Forall (λ vg, vg.1 ≠ "") kv.2) curated_derivs →
  Forall (λ c, cand_root c ≠ "" ∧ cand_inf c ≠ "")
         (build_candidate_forms base_verbs curated_derivs prefixes).
Proof.
  intros Hbase Hcur. rewrite Forall_forall in Hbase. rewrite Forall_forall in Hcur.
  apply Forall_forall. intros c Hc.
  rewrite build_candidate_forms_spec in Hc.
  assert (c ∈ spec_emitted base_verbs curated_derivs prefixes) as Hem
    by (eapply elem_of_sublist; [exact Hc|apply keep_first_sublist]).
  clear Hc. unfold spec_emitted in Hem.
  apply elem_of_app in Hem as [Hb|[Hd|Hp]%elem_of_app].
  - by apply Hbase.
  - apply spec_derived_segment_elem in Hd as (key & pairs & v & g & Hkey & Hvg & ->).
    unfold cand_root, cand_inf; simpl. split.
    + destruct (resolve_root_cases base_verbs key) as [Hr| ->].
      * apply list_elem_of_fmap in Hr as (b & -> & Hb). by apply Hbase.
      * apply fallback_tag_nonempty.
    + specialize (Hcur _ Hkey). rewrite Forall_forall in Hcur.
      apply (Hcur _ Hvg).
  - apply spec_prefixed_segment_elem in Hp as (b & p & Hb & _ & _ & Hne & ->).
    destruct (Hbase _ Hb) as [Hroot Hinf]. split; [done|].
    change (p +:+ cand_inf b ≠ "").
    intros Heq. apply (f_equal String.length) in Heq.
    rewrite string_length_app in Heq.
    destruct (cand_inf b); [done|]. simpl in Heq. lia.
Qed.

Lemma X3_tags_and_headwords_nonempty_witness :
  Forall (λ c, cand_root c ≠ "" ∧ cand_inf c ≠ "")
         (build_candidate_forms (S:=list string)
            BASE_VERBS CURATED_DERIVS PREFIXES).
Proof.
  apply (X3_tags_and_headwords_nonempty (S:=list string)
           BASE_VERBS CURATED_DERIVS PREFIXES).
  - compute_done.
  - compute_done.
Defined.

(** ** The selector on pools with repeated headwords *)

(** X4.  On any pool, repeated headwords included, the selector returns
    exactly when the pool has at least [N] distinct headwords; what it
    returns are [N] rows, one for each of the first [N] distinct headwords
    in the order of their first occurrence, with the tag and the gloss of
    that first occurrence. *)
Theorem X4_selector_first_distinct_headwords {S : Type} `{PySet S}
    (N fuel : nat) (cands : list Candidate) :
  0 < N →
  ((∃ rows (seen : S), select_rows N fuel cands = Done (rows, seen))
   ↔ N ≤ length (keep_first_by_headword cands)) ∧
  ∀ rows (seen : S),
    select_rows N fuel cands = Done (rows, seen) →
    length rows = N ∧
    russian <$> rows = take N (cand_inf <$> keep_first_by_headword cands) ∧
    ∀ r, r ∈ rows →
         ∃ i, cands !! i = Some (root_tag r, russian r, english_gloss r) ∧
              ∀ j c, j < i → cands !! j = Some c → cand_inf c ≠ russian r.
Proof.
  intros HN. split.
  - split.
    + intros (rows & seen & Hrun). by apply select_rows_done in Hrun as (? & _).
    + intros Hlen.
      destruct (select_rows_enough (S:=S) N cands HN Hlen fuel) as (seen & Hrun & _).
      by eexists _, seen.
  - intros rows seen Hrun.
    apply select_rows_done in Hrun as (Hlen & -> & _); [|done].
    unfold round_robin_rows. split_and!.
    + rewrite round_robin_rows_from_length, length_take. lia.
    + by rewrite round_robin_rows_from_russian, fmap_take.
    + intros r Hr. apply list_elem_of_lookup in Hr as [k Hk].
      rewrite round_robin_rows_from_lookup in Hk.
      destruct (take N (keep_first_by_headword cands) !! k) as [c|] eqn:Hc;
        [|done].
      injection Hk as <-. simpl.
      apply list_elem_of_lookup_2, elem_of_take in Hc as (k' & Hc & _).
      apply list_elem_of_lookup_2, keep_first_is_first in Hc as (i & Hi & Hfirst).
      exists i. destruct c as [[root v] g]. split; [exact Hi|].
      intros j c Hj Hjc. by apply (Hfirst j c).
Qed.

Lemma X4_selector_first_distinct_headwords_witness :
  (∃ rows (seen : list string),
     select_rows 2 0
       [("a-", "делать", "one"); ("b-", "делать", "two"); ("c-", "знать", "three")]
     = Done (rows, seen))
  ↔ 2 ≤ length (keep_first_by_headword
                  [("a-", "делать", "one"); ("b-", "делать", "two");
                   ("c-", "знать", "three")]).
Proof.
  apply (X4_selector_first_distinct_headwords (S:=list string) 2 0). lia.
Defined.

(** X5.  The [while] loop of [main] never adds a row: whenever the two
    loops return, the [for] loop alone had produced the same rows and the
    same [seen], and the run returns with no turn of the [while] loop
    (fuel 0). *)
Theorem X5_wraparound_adds_nothing {S : Type} `{PySet S}
    (N fuel : nat) (cands : list Candidate) (rows : list Row) (seen : S) :
  select_rows N fuel cands = Done (rows, seen) →
  first_pass N cands [] set_new = Done (rows, seen) ∧
  select_rows N 0 cands = Done (rows, seen).
Proof.
  intros Hrun.
  destruct (decide (0 < N)) as [HN|HN].
  - pose proof Hrun as Hdone.
    apply select_rows_done in Hdone as (Hlen & -> & _); [|done].
    destruct (first_pass_initial (S:=S) N cands HN) as (seen' & Hfirst & _).
    assert (N ≤ length (round_robin_rows
                          (take N (keep_first_by_headword cands)))) as Hrows.
    { unfold round_robin_rows.
      rewrite round_robin_rows_from_length, length_take. lia. }
    assert (∀ f, select_rows N f cands
                 = Done (round_robin_rows
                           (take N (keep_first_by_headword cands)), seen'))
      as Hany.
    { intros f. unfold select_rows. rewrite Hfirst. cbn.
      by rewrite wrap_loop_at_target. }
    rewrite Hany in Hrun. injection Hrun as <-.
    split; [exact Hfirst|apply Hany].
  - assert (N = 0) as -> by lia. revert Hrun. unfold select_rows.
    destruct (first_pass 0 cands [] set_new) as [[rows1 seen1]| |]; [|done..].
    cbn. rewrite !wrap_loop_at_target by lia. cbn. intros [= <- <-]. done.
Qed.

Lemma X5_wraparound_adds_nothing_witness :
  first_pass (S:=list string) 3 (take 4 BASE_VERBS) [] set_new
  = Done ([mkRow "дел-" "делать" "to do; to make"
                 "Я хочу делать." "I want делать.";
           mkRow "сказ-" "сказать" "to say (pfv)"
                 "Он может сказать." "He can сказать.";
           mkRow "говор-" "говорить" "to speak; to talk"
                 "Мы будем говорить завтра." "We will говорить tomorrow."],
          ["говорить"; "сказать"; "делать"]).
Proof.
  apply (X5_wraparound_adds_nothing (S:=list string) 3 7 (take 4 BASE_VERBS)).
  reflexivity.
Defined.

(** ** The phrases *)

Lemma list_ascii_of_string_app (a b : string) :
  String.list_ascii_of_string (a +:+ b)
  = String.list_ascii_of_string a ++ String.list_ascii_of_string b.
Proof.
  induction a as [|x a IH]; [done|].
  rewrite string_app_cons. simpl. by rewrite IH.
Qed.

Lemma list_ascii_of_string_inj (a b : string) :
  String.list_ascii_of_string a = String.list_ascii_of_string b → a = b.
Proof.
  intros Heq. apply (f_equal String.string_of_list_ascii) in Heq.
  by rewrite !String.string_of_list_ascii_of_string in Heq.
Qed.

Lemma string_app_inv_tail (a b c : string) : a +:+ c = b +:+ c → a = b.
Proof.
  intros Heq. apply list_ascii_of_string_inj.
  apply (f_equal String.list_ascii_of_string) in Heq.
  rewrite !list_ascii_of_string_app in Heq. by apply app_inv_tail in Heq.
Qed.

Lemma round_robin_phrases_mod v i :
  round_robin_phrases v i = round_robin_phrases v (i mod 5).
Proof.
  unfold round_robin_phrases. rewrite PHRASE_TEMPLATES_length.
  by rewrite Nat.Div0.mod_mod.
Qed.

Ltac phrase_cases i j Heq :=
  destruct i as [|[|[|[|[|i]]]]]; [..|lia];
  (destruct j as [|[|[|[|[|j]]]]]; [..|lia]);
  cbv in Heq; simplify_eq; try done.

(** The Russian phrase tells the headword and the template. *)
Lemma phrase_ru_inj v1 v2 i j :
  i < 5 → j < 5 →
  (round_robin_phrases v1 i).1 = (round_robin_phrases v2 j).1 →
  v1 = v2 ∧ i = j.
Proof.
  intros Hi Hj Heq. phrase_cases i j Heq.
  all: split; [|done].
  all: match goal with Hs : _ = _ |- _ =>
         first [ apply (string_app_inv_tail _ _ ".") ; exact Hs
               | apply (string_app_inv_tail _ _ " завтра."); exact Hs
               | apply (string_app_inv_tail _ _ " сегодня."); exact Hs ] end.
Qed.

Lemma phrase_en_inj v1 v2 i j :
  i < 5 → j < 5 →
  (round_robin_phrases v1 i).2 = (round_robin_phrases v2 j).2 →
  v1 = v2 ∧ i = j.
Proof.
  intros Hi Hj Heq. phrase_cases i j Heq.
  all: split; [|done].
  all: match goal with Hs : _ = _ |- _ =>
         first [ apply (string_app_inv_tail _ _ ".") ; exact Hs
               | apply (string_app_inv_tail _ _ " tomorrow."); exact Hs
               | apply (string_app_inv_tail _ _ " today."); exact Hs ] end.
Qed.

(** X6.  [make_phrases] gives the same pair for two calls exactly when the
    verbs are equal and the indices agree modulo 5; each half of the pair
    alone already tells the verb and the template. *)
Theorem X6_make_phrases_injective (v1 v2 : string) (i j : nat) :
  (make_phrases v1 i = make_phrases v2 j ↔ v1 = v2 ∧ i mod 5 = j mod 5) ∧
  ((round_robin_phrases v1 i).1 = (round_robin_phrases v2 j).1
   ↔ v1 = v2 ∧ i mod 5 = j mod 5) ∧
  ((round_robin_phrases v1 i).2 = (round_robin_phrases v2 j).2
   ↔ v1 = v2 ∧ i mod 5 = j mod 5) ∧
  make_phrases v1 i = Done (round_robin_phrases v1 i).
Proof.
  pose proof (Nat.mod_upper_bound i 5 ltac:(lia)) as Hi.
  pose proof (Nat.mod_upper_bound j 5 ltac:(lia)) as Hj.
  rewrite !make_phrases_spec.
  rewrite (round_robin_phrases_mod v1 i), (round_robin_phrases_mod v2 j).
  split_and!.
  - split.
    + intros [= Heq]. apply (f_equal fst) in Heq. by apply phrase_ru_inj.
    + by intros [-> ->].
  - split; [by apply phrase_ru_inj|by intros [-> ->]].
  - split; [by apply phrase_en_inj|by intros [-> ->]].
  - done.
Qed.

(** X7.  No two rows of a returned sequence share their Russian phrase, nor
    their English phrase: the audio file and the literal gloss of a card
    belong to one card only. *)
Theorem X7_rows_have_distinct_phrases {S : Type} `{PySet S}
    (N fuel : nat) (cands : list Candidate) (rows : list Row) (seen : S)
    (i j : nat) (ri rj : Row) :
  0 < N →
  select_rows N fuel cands = Done (rows, seen) →
  rows !! i = Some ri →
  rows !! j = Some rj →
  phrase_ru ri = phrase_ru rj ∨ literal_en ri = literal_en rj →
  i = j.
Proof.
  intros HN Hrun Hri Hrj Hsame.
  destruct (select_rows_unique N fuel cands rows seen HN Hrun) as [Hnd _].
  apply select_rows_done in Hrun as (_ & -> & _); [|done].
  unfold round_robin_rows in Hri, Hrj.
  rewrite round_robin_rows_from_lookup in Hri, Hrj.
  destruct (take N (keep_first_by_headword cands) !! i) as [ci|] eqn:Hci; [|done].
  destruct (take N (keep_first_by_headword cands) !! j) as [cj|] eqn:Hcj; [|done].
  injection Hri as <-. injection Hrj as <-. simpl in Hsame.
  assert (cand_inf ci = cand_inf cj) as Hinf.
  { rewrite (round_robin_phrases_mod _ i), (round_robin_phrases_mod _ j) in Hsame.
    pose proof (Nat.mod_upper_bound i 5 ltac:(lia)).
    pose proof (Nat.mod_upper_bound j 5 ltac:(lia)).
    destruct Hsame as [Hru|Hen].
    - by apply phrase_ru_inj in Hru as [? _].
    - by apply phrase_en_inj in Hen as [? _]. }
  unfold round_robin_rows in Hnd. rewrite round_robin_rows_from_russian in Hnd.
  eapply (NoDup_lookup _ i j (cand_inf ci)); [exact Hnd|..].
  - by rewrite list_lookup_fmap, Hci.
  - by rewrite list_lookup_fmap, Hcj, Hinf.
Qed.

Lemma X7_rows_have_distinct_phrases_witness : 2 = 2.
Proof.
  apply (X7_rows_have_distinct_phrases (S:=list string) 3 0 (take 4 BASE_VERBS)
           (round_robin_rows (take 3 BASE_VERBS))
           ["говорить"; "сказать"; "делать"] 2 2
           (mkRow "говор-" "говорить" "to speak; to talk"
                  "Мы будем говорить завтра." "We will говорить tomorrow.")
           (mkRow "говор-" "говорить" "to speak; to talk"
                  "Мы будем говорить завтра." "We will говорить tomorrow.")).
  - lia.
  - reflexivity.
  - reflexivity.
  - reflexivity.
  - left. reflexivity.
Defined.

(** ** File names *)

Lemma utf8_chars_cons a rest :
  utf8_chars (String a rest)
  = match utf8_chars rest with
    | String b c :: cs =>
        if utf8_continuation b then String a (String b c) :: cs
        else String a EmptyString :: String b c :: cs
    | cs => String a EmptyString :: cs
    end.
Proof. reflexivity. Qed.

(** The first character begins with the first byte. *)
Lemma utf8_chars_head a rest :
  ∃ x cs, utf8_chars (String a rest) = String a x :: cs.
Proof.
  rewrite utf8_chars_cons.
  destruct (utf8_chars rest) as [|[|b c] cs]; [by eexists _, _..|].
  destruct (utf8_continuation b); by eexists _, _.
Qed.

Lemma utf8_chars_join s : join_chars (utf8_chars s) = s.
Proof.
  induction s as [|a s IH]; [done|].
  rewrite utf8_chars_cons.
  destruct (utf8_chars s) as [|[|b c] cs]; simpl in *.
  - by rewrite <- IH.
  - by rewrite <- IH.
  - destruct (utf8_continuation b); simpl; by rewrite <- IH.
Qed.

Lemma utf8_chars_nonempty s : Forall (λ c, c ≠ "") (utf8_chars s).
Proof.
  induction s as [|a s IH]; [constructor|].
  rewrite utf8_chars_cons.
  destruct (utf8_chars s) as [|[|b c] cs].
  - by repeat constructor.
  - by constructor.
  - apply Forall_cons in IH as [_ IH].
    destruct (utf8_continuation b); by repeat constructor.
Qed.

(** A whole character in front of a text that begins a character is the
    first character of the two put together. *)
Lemma utf8_chars_app_whole a conts s :
  all_bytes utf8_continuation conts = true →
  starts_whole s = true →
  utf8_chars (String a conts +:+ s) = String a conts :: utf8_chars s.
Proof.
  revert a. induction conts as [|k conts IH]; intros a Hconts Hs.
  - rewrite string_app_cons, string_app_empty, utf8_chars_cons.
    destruct s as [|b r]; [done|].
    destruct (utf8_chars_head b r) as (x & cs & ->).
    simpl in Hs. apply negb_true_iff in Hs. by rewrite Hs.
  - simpl in Hconts. apply andb_true_iff in Hconts as [Hk Hconts].
    rewrite string_app_cons, utf8_chars_cons.
    rewrite IH by done. by rewrite Hk.
Qed.

Lemma byte_in_continuation b :
  byte_in 128 191 b = true → utf8_continuation b = true.
Proof.
  destruct b as [[] [] [] [] [] [] [] []]; vm_compute; intros Heq;
    first [reflexivity | discriminate Heq].
Qed.

Lemma allowed_ascii_not_continuation a :
  allowed_ascii a = true →
  utf8_continuation a = false ∧ nat_of_ascii a < 128.
Proof.
  destruct a as [[] [] [] [] [] [] [] []]; vm_compute; intros Heq;
    first [discriminate Heq | split; [reflexivity|lia]].
Qed.

Lemma byte_in_spec lo hi a :
  byte_in lo hi a = true ↔ lo ≤ nat_of_ascii a ∧ nat_of_ascii a ≤ hi.
Proof.
  unfold byte_in. by rewrite andb_true_iff, !Nat.leb_le.
Qed.

(** The characters of the class are one or two bytes long; the two-byte
    ones are a lead byte [D0] or [D1] and one continuation byte. *)
Lemma allowed_char_cases c :
  allowed_char c = true →
  (∃ a, c = String a "" ∧ allowed_ascii a = true) ∨
  (∃ a b, c = String a (String b "") ∧
          (nat_of_ascii a = 208 ∨ nat_of_ascii a = 209) ∧
          byte_in 128 191 b = true).
Proof.
  destruct c as [|a [|b [|? ?]]]; cbn [allowed_char]; [discriminate| | |discriminate].
  - intros Ha. left. by exists a.
  - intros Hab. right. exists a, b. split; [reflexivity|].
    rewrite byte_in_spec.
    apply orb_true_iff in Hab as [Hab|Hab];
      apply andb_true_iff in Hab as [Ha%Nat.eqb_eq Hb];
      apply orb_true_iff in Hb as [Hb%byte_in_spec|Hb%Nat.eqb_eq];
      (split; [tauto|lia]).
Qed.

Lemma lead_byte_not_continuation a :
  nat_of_ascii a = 208 ∨ nat_of_ascii a = 209 →
  utf8_continuation a = false ∧ 128 ≤ nat_of_ascii a.
Proof.
  intros Ha. split; [|lia].
  destruct a as [[] [] [] [] [] [] [] []]; vm_compute in Ha |- *;
    first [reflexivity | destruct Ha as [Ha|Ha]; discriminate Ha].
Qed.

Lemma allowed_char_whole c : allowed_char c = true → whole_char c = true.
Proof.
  intros [(a & -> & Ha)|(a & b & -> & Ha & Hb)]%allowed_char_cases;
    cbn [whole_char all_bytes].
  - apply allowed_ascii_not_continuation in Ha as [-> _]. reflexivity.
  - apply lead_byte_not_continuation in Ha as [-> _].
    apply byte_in_continuation in Hb as ->. reflexivity.
Qed.

Lemma sub_runs_starts_whole cs in_run :
  starts_whole (sub_runs cs in_run) = true.
Proof.
  revert in_run. induction cs as [|c cs IH]; intros in_run; [done|].
  cbn [sub_runs]. destruct (allowed_char c) eqn:Hc.
  - apply allowed_char_whole in Hc. destruct c as [|a conts]; [done|].
    rewrite string_app_cons. simpl. simpl in Hc.
    by apply andb_true_iff in Hc as [-> _].
  - destruct in_run; [apply IH|done].
Qed.

(** The characters of the result are characters of the class. *)
Lemma sub_runs_chars cs in_run :
  Forall (λ c, allowed_char c = true) (utf8_chars (sub_runs cs in_run)).
Proof.
  revert in_run. induction cs as [|c cs IH]; intros in_run; [constructor|].
  cbn [sub_runs]. destruct (allowed_char c) eqn:Hc.
  - pose proof (allowed_char_whole c Hc) as Hw.
    destruct c as [|a conts]; [done|]. simpl in Hw.
    apply andb_true_iff in Hw as [_ Hconts].
    rewrite utf8_chars_app_whole by (done || apply sub_runs_starts_whole).
    constructor; [done|apply IH].
  - destruct in_run; [apply IH|].
    rewrite (utf8_chars_app_whole "_" "") by (done || apply sub_runs_starts_whole).
    constructor; [done|apply IH].
Qed.

Lemma sub_runs_allowed cs in_run :
  Forall (λ c, allowed_char c = true) cs → sub_runs cs in_run = join_chars cs.
Proof.
  intros Hcs. revert in_run.
  induction Hcs as [|c cs Hc _ IH]; intros in_run; [done|].
  cbn [sub_runs]. rewrite Hc, IH. done.
Qed.

Lemma string_app_nil_r (s : string) : s +:+ "" = s.
Proof. induction s as [|a s IH]; [done|]. by rewrite string_app_cons, IH. Qed.

Lemma all_bytes_app p (a b : string) :
  all_bytes p (a +:+ b) = all_bytes p a && all_bytes p b.
Proof.
  induction a as [|x a IH]; [done|].
  rewrite string_app_cons. simpl. by rewrite IH, andb_assoc.
Qed.

Lemma sub_runs_bytes cs in_run :
  all_bytes (λ a, allowed_ascii a || (128 <=? nat_of_ascii a))
            (sub_runs cs in_run) = true.
Proof.
  revert in_run. induction cs as [|c cs IH]; intros in_run; [done|].
  cbn [sub_runs]. destruct (allowed_char c) eqn:Hc.
  - rewrite all_bytes_app, IH, andb_true_r.
    apply allowed_char_cases in Hc as [(a & -> & Ha)|(a & b & -> & Ha & Hb)].
    + cbn [all_bytes]. by rewrite Ha.
    + apply lead_byte_not_continuation in Ha as [_ Ha].
      apply byte_in_spec in Hb as [Hb _].
      apply Nat.leb_le in Ha, Hb. cbn [all_bytes].
      by rewrite Ha, Hb, !orb_true_r.
  - destruct in_run; [apply IH|].
    rewrite all_bytes_app, IH. done.
Qed.

Lemma all_bytes_impl (p q : ascii → bool) s :
  (∀ a, p a = true → q a = true) →
  all_bytes p s = true → all_bytes q s = true.
Proof.
  intros Hpq. induction s as [|a s IH]; [done|]. simpl.
  intros [Ha Hs]%andb_true_iff. by rewrite (Hpq a Ha), IH.
Qed.

Lemma sub_runs_length cs in_run :
  Forall (λ c, c ≠ "") cs →
  String.length (sub_runs cs in_run) ≤ String.length (join_chars cs).
Proof.
  intros Hcs. revert in_run.
  induction Hcs as [|c cs Hc _ IH]; intros in_run; [done|].
  cbn [sub_runs].
  change (join_chars (c :: cs)) with (c +:+ join_chars cs).
  rewrite (string_length_app c (join_chars cs)).
  assert (1 ≤ String.length c) by (destruct c; [done|simpl; lia]).
  destruct (allowed_char c).
  - rewrite string_length_app. specialize (IH false). lia.
  - destruct in_run.
    + specialize (IH true). lia.
    + rewrite string_length_app. specialize (IH true). simpl. lia.
Qed.

(** X8.  [safe_name] returns a string made of characters of the class
    [0-9a-zA-Zа-яА-ЯёЁ_.-] only.  Its bytes are letters, digits, [_], [.],
    [-] or bytes of Cyrillic letters: no path separator, no space, no
    control character reaches a file name. *)
Theorem X8_safe_name_only_allowed_characters (s : string) :
  Forall (λ c, allowed_char c = true) (utf8_chars (safe_name s)) ∧
  all_bytes (λ a, allowed_ascii a || (128 <=? nat_of_ascii a)) (safe_name s)
  = true ∧
  all_bytes (λ a, negb (Ascii.eqb a "/") && negb (Ascii.eqb a " ")
                  && (32 <=? nat_of_ascii a)) (safe_name s) = true.
Proof.
  unfold safe_name. split_and!.
  - apply sub_runs_chars.
  - apply sub_runs_bytes.
  - eapply all_bytes_impl; [|apply sub_runs_bytes].
    intros a. destruct a as [[] [] [] [] [] [] [] []]; by vm_compute.
Qed.

(** X9.  [safe_name] changes nothing in a string made of characters of the
    class, and applying it twice is applying it once. *)
Theorem X9_safe_name_idempotent (s : string) :
  (Forall (λ c, allowed_char c = true) (utf8_chars s) → safe_name s = s) ∧
  safe_name (safe_name s) = safe_name s.
Proof.
  assert (∀ t, Forall (λ c, allowed_char c = true) (utf8_chars t) →
               safe_name t = t) as Hid.
  { intros t Ht. unfold safe_name.
    by rewrite sub_runs_allowed, utf8_chars_join. }
  split; [apply Hid|]. apply Hid. apply sub_runs_chars.
Qed.

(** X10.  [safe_name] never makes a name longer (in bytes), and gives the
    empty name for the empty string only. *)
Theorem X10_safe_name_length (s : string) :
  String.length (safe_name s) ≤ String.length s ∧
  (safe_name s = "" ↔ s = "").
Proof.
  split.
  - pose proof (sub_runs_length (utf8_chars s) false (utf8_chars_nonempty s))
      as Hlen.
    by rewrite utf8_chars_join in Hlen.
  - split; [|by intros ->].
    destruct s as [|a r]; [done|]. unfold safe_name.
    destruct (utf8_chars_head a r) as (x & cs & ->). cbn [sub_runs].
    destruct (allowed_char (String a x)); rewrite string_app_cons; discriminate.
Qed.

(** ** Packaging: notes and media files *)

Lemma str_of_nat_inj i j : str_of_nat i = str_of_nat j → i = j.
Proof.
  unfold str_of_nat. intros Heq.
  apply (f_equal NilEmpty.uint_of_string) in Heq.
  rewrite !NilEmpty.usu in Heq. injection Heq as Heq.
  by apply Unsigned.to_uint_inj.
Qed.

Lemma string_of_uint_no_underscore d :
  "_"%char ∉ String.list_ascii_of_string (NilEmpty.string_of_uint d).
Proof.
  induction d; simpl; [apply not_elem_of_nil|..];
    (apply not_elem_of_cons; split; [discriminate|exact IHd]).
Qed.

(** The decimal index closes the stem of a file name: two names with the
    same extension are different as soon as their indices are. *)
Lemma indexed_name_inj (x y ext : string) i j :
  "_"%char ∉ String.list_ascii_of_string ext →
  x +:+ "_" +:+ str_of_nat i +:+ ext = y +:+ "_" +:+ str_of_nat j +:+ ext →
  i = j.
Proof.
  intros Hext Heq. apply (f_equal String.list_ascii_of_string) in Heq.
  rewrite !list_ascii_of_string_app in Heq. simpl in Heq.
  apply not_elem_of_app_cons_inv_r in Heq as (_ & _ & Heq).
  - apply app_inv_tail in Heq. apply str_of_nat_inj.
    by apply list_ascii_of_string_inj.
  - apply not_elem_of_app. split; [apply string_of_uint_no_underscore|done].
  - apply not_elem_of_app. split; [apply string_of_uint_no_underscore|done].
Qed.

Lemma string_app_assoc (a b c : string) : (a +:+ b) +:+ c = a +:+ b +:+ c.
Proof.
  induction a as [|x a IH]; [done|]. by rewrite !string_app_cons, IH.
Qed.

Section PackagingRuns.
Variable safe_name : string → string.
Variable synth_audio_gtts : string → string → bool.
Variable synth_audio_espeak : string → string → bool.

Lemma media_from_lookup media_dir audio_mode i rows k :
  media_from safe_name media_dir audio_mode i rows !! k
  = (λ r, media_dir +:+ "/" +:+ media_file_name safe_name audio_mode (i + k) r)
      <$> rows !! k.
Proof.
  revert i k. induction rows as [|r rows IH]; intros i [|k]; simpl; try done.
  - by rewrite Nat.add_0_r.
  - rewrite IH. by replace (Datatypes.S i + k) with (i + Datatypes.S k) by lia.
Qed.

Lemma media_from_length media_dir audio_mode i rows :
  length (media_from safe_name media_dir audio_mode i rows) = length rows.
Proof.
  revert i. induction rows as [|r rows IH]; intros i; simpl; [done|].
  by rewrite IH.
Qed.

(** Two media files of one run are different files. *)
Lemma media_from_NoDup media_dir audio_mode i rows :
  NoDup (media_from safe_name media_dir audio_mode i rows).
Proof.
  apply NoDup_alt. intros k1 k2 path Hk1 Hk2.
  rewrite media_from_lookup in Hk1, Hk2.
  destruct (rows !! k1) as [r1|]; [|done].
  destruct (rows !! k2) as [r2|]; [|done].
  injection Hk1 as <-. injection Hk2 as Heq.
  unfold media_file_name in Heq.
  assert (i + k2 = i + k1); [|lia].
  destruct (audio_mode =? "gtts")%string;
    rewrite <- !(string_app_assoc media_dir), <- !(string_app_assoc (_ +:+ "/")) in Heq;
    apply indexed_name_inj in Heq; try done; compute_done.
Qed.

(** The loop goes through exactly when no row has a failing synthesis or
    a tag with a space. *)
Lemma first_failure_none media_dir audio_mode i rows :
  first_failure safe_name synth_audio_gtts synth_audio_espeak
    media_dir audio_mode i rows = None
  ↔ ∀ k r, rows !! k = Some r →
           synthesis_succeeds safe_name synth_audio_gtts synth_audio_espeak
             media_dir audio_mode (i + k) r = true ∧
           contains_space (root_tag r) = false.
Proof.
  revert i. induction rows as [|r rows IH]; intros i; cbn [first_failure].
  - split; [by intros _ k r ?|done].
  - destruct (synthesis_succeeds _ _ _ _ _ i r) eqn:Hsynth; cbn [negb].
    + destruct (contains_space (root_tag r)) eqn:Htag.
      * split; [done|]. intros Hall.
        destruct (Hall 0 r eq_refl) as [_ Hr]. congruence.
      * rewrite IH. split.
        -- intros Hrest [|k] r' Hk; simpl in Hk.
           ++ injection Hk as <-. by rewrite Nat.add_0_r.
           ++ replace (i + Datatypes.S k) with (Datatypes.S i + k) by lia.
              by apply Hrest.
        -- intros Hall k r' Hk. specialize (Hall (Datatypes.S k) r' Hk).
           by replace (i + Datatypes.S k) with (Datatypes.S i + k) in Hall by lia.
    + split; [done|]. intros Hall.
      destruct (Hall 0 r eq_refl) as [Hr _].
      rewrite Nat.add_0_r in Hr. congruence.
Qed.

(** The mode picks the synthesizer. *)
Lemma first_failure_gtts other media_dir i rows :
  first_failure safe_name synth_audio_gtts synth_audio_espeak
    media_dir "gtts" i rows
  = first_failure safe_name synth_audio_gtts other media_dir "gtts" i rows.
Proof.
  revert i. induction rows as [|r rows IH]; intros i; [done|].
  cbn [first_failure]. by rewrite IH.
Qed.

Lemma first_failure_espeak other media_dir i rows :
  first_failure safe_name synth_audio_gtts synth_audio_espeak
    media_dir "espeak" i rows
  = first_failure safe_name other synth_audio_espeak media_dir "espeak" i rows.
Proof.
  revert i. induction rows as [|r rows IH]; intros i; [done|].
  cbn [first_failure]. by rewrite IH.
Qed.

Lemma first_failure_none_mode other1 other2 media_dir i rows :
  first_failure safe_name synth_audio_gtts synth_audio_espeak
    media_dir "none" i rows
  = first_failure safe_name other1 other2 media_dir "none" i rows.
Proof.
  revert i. induction rows as [|r rows IH]; intros i; [done|].
  cbn [first_failure]. by rewrite IH.
Qed.
End PackagingRuns.

(** X11.  When [build_anki] succeeds with audio enabled it has listed one
    media file per row, at [media_dir / fname] for the [fname] of the row
    and its position, and no two of these files are the same: the position
    in the name keeps apart rows whose headwords [safe_name] maps to the
    same text.  With audio disabled it lists no media file. *)
Theorem X11_media_files_distinct
    (safe_name : string → string)
    (synth_audio_gtts synth_audio_espeak : string → string → bool)
    (media_dir_of : string → string) (file_exists : string → bool)
    (deck_name : string) (rows : list Row) (out_apkg audio_mode : string)
    (notes : list Note) (media : list string) :
  build_anki safe_name synth_audio_gtts synth_audio_espeak media_dir_of
    file_exists deck_name rows out_apkg audio_mode = Done (notes, media) →
  NoDup media ∧
  length media = (if (audio_mode =? "none")%string then 0 else length rows) ∧
  ∀ k path,
    media !! k = Some path →
    ∃ r, rows !! k = Some r ∧
         path = media_dir_of out_apkg +:+ "/"
                +:+ media_file_name safe_name audio_mode k r.
Proof.
  intros (_ & _ & -> & _)%build_anki_done. unfold listed_from.
  destruct (audio_mode =? "none")%string.
  - split_and!; [constructor|done|]. by intros k path ?.
  - split_and!.
    + apply media_from_NoDup.
    + apply media_from_length.
    + intros k path Hk. rewrite media_from_lookup in Hk.
      destruct (rows !! k) as [r|]; [|done].
      injection Hk as <-. by exists r.
Qed.

Lemma X11_media_files_distinct_witness :
  NoDup ["out_media/делать_0.mp3"; "out_media/делать_1.mp3"].
Proof.
  apply (X11_media_files_distinct safe_name (λ _ _, true) (λ _ _, true)
           (λ out, out +:+ "_media") (λ _, false) "deck"
           [mkRow "дел-" "делать" "to do" "Я хочу делать." "I want делать.";
            mkRow "дел-" "делать" "to make" "Он может делать." "He can делать."]
           "out" "gtts"
           [mkNote ["делать"; "to do"; "Я хочу делать."; "I want делать.";
                    "[sound:делать_0.mp3]"; "дел-"] ["дел-"];
            mkNote ["делать"; "to make"; "Он может делать."; "He can делать.";
                    "[sound:делать_1.mp3]"; "дел-"] ["дел-"]]
           ["out_media/делать_0.mp3"; "out_media/делать_1.mp3"]).
  reflexivity.
Defined.



(** X13.  What keeps [build_anki] from returning: when it returns, every
    call of the synthesizer of the mode has succeeded, no tag has a space
    (or [genanki.Note] had raised), and every listed media file is there
    for [write_to_file], written by the synthesizer of the mode or present
    before the run.  The mode picks the synthesizer: in mode ["gtts"] the
    offline synthesizer is never called, in mode ["espeak"] the networked
    one is never called, and with audio disabled neither is. *)
Theorem X13_packaging_fails_with_synthesis
    (safe_name : string → string)
    (synth_audio_gtts synth_audio_espeak : string → string → bool)
    (media_dir_of : string → string) (file_exists : string → bool)
    (deck_name : string) (rows : list Row) (out_apkg audio_mode : string) :
  (∀ notes media,
      build_anki safe_name synth_audio_gtts synth_audio_espeak media_dir_of
        file_exists deck_name rows out_apkg audio_mode = Done (notes, media) →
      (∀ k r, rows !! k = Some r →
              synthesis_succeeds safe_name synth_audio_gtts synth_audio_espeak
                (media_dir_of out_apkg) audio_mode k r = true ∧
              contains_space (root_tag r) = false) ∧
      (∀ path, path ∈ media →
               audio_mode = "gtts" ∨ audio_mode = "espeak" ∨
               file_exists path = true)) ∧
  (∀ other,
      build_anki safe_name synth_audio_gtts synth_audio_espeak media_dir_of
        file_exists deck_name rows out_apkg "gtts"
      = build_anki safe_name synth_audio_gtts other media_dir_of
          file_exists deck_name rows out_apkg "gtts") ∧
  (∀ other,
      build_anki safe_name synth_audio_gtts synth_audio_espeak media_dir_of
        file_exists deck_name rows out_apkg "espeak"
      = build_anki safe_name other synth_audio_espeak media_dir_of
          file_exists deck_name rows out_apkg "espeak") ∧
  (∀ other1 other2,
      build_anki safe_name synth_audio_gtts synth_audio_espeak media_dir_of
        file_exists deck_name rows out_apkg "none"
      = build_anki safe_name other1 other2 media_dir_of
          file_exists deck_name rows out_apkg "none").
Proof.
  split_and!.
  - intros notes media (Hnone & _ & -> & Hfiles)%build_anki_done. split.
    + intros k r Hk. by apply (proj1 (first_failure_none _ _ _ _ _ 0 rows) Hnone).
    + intros path Hpath. rewrite forallb_forall in Hfiles.
      apply list_elem_of_In, Hfiles in Hpath.
      apply orb_true_iff in Hpath as [Hthere|Hwritten]; [by right; right|].
      unfold written_from in Hwritten.
      destruct (String.eqb_spec audio_mode "gtts") as [->|_]; [by left|].
      destruct (String.eqb_spec audio_mode "espeak") as [->|_];
        [by right; left|done].
  - intros other. rewrite !build_anki_cases.
    by rewrite (first_failure_gtts _ _ _ other).
  - intros other. rewrite !build_anki_cases.
    by rewrite (first_failure_espeak _ _ _ other).
  - intros other1 other2. rewrite !build_anki_cases.
    by rewrite (first_failure_none_mode _ _ _ other1 other2).
Qed.

(** ** The slice of the fallback tag *)

Lemma py_take_chars_continuations n conts t :
  all_bytes utf8_continuation conts = true →
  py_take_chars n (conts +:+ t) = conts +:+ py_take_chars n t.
Proof.
  induction conts as [|k conts IH]; [done|].
  cbn [all_bytes]. intros [Hk Hconts]%andb_true_iff.
  rewrite !string_app_cons. cbn [py_take_chars]. by rewrite Hk, IH.
Qed.

Lemma py_take_chars_join n cs :
  Forall (λ c, whole_char c = true) cs →
  py_take_chars n (join_chars cs) = join_chars (take n cs).
Proof.
  intros Hcs. revert n. induction Hcs as [|c cs Hc _ IH]; intros n.
  - by destruct n.
  - change (join_chars (c :: cs)) with (c +:+ join_chars cs).
    destruct c as [|a conts]; [done|]. cbn [whole_char] in Hc.
    apply andb_true_iff in Hc as [Ha%negb_true_iff Hconts].
    rewrite string_app_cons. cbn [py_take_chars]. rewrite Ha.
    destruct n as [|n]; [done|].
    rewrite py_take_chars_continuations, IH by done.
    cbn [take]. change (join_chars (String a conts :: take n cs))
      with (String a conts +:+ join_chars (take n cs)).
    by rewrite string_app_cons.
Qed.

(** The characters after the first are whole; the first one is the first
    byte with the continuation bytes behind it. *)
Lemma utf8_chars_shape s :
  match utf8_chars s with
  | [] => s = ""
  | c :: cs =>
      (∃ a conts r, s = String a r ∧ c = String a conts ∧
                    all_bytes utf8_continuation conts = true) ∧
      Forall (λ c, whole_char c = true) cs
  end.
Proof.
  induction s as [|a s IH]; [done|].
  rewrite utf8_chars_cons.
  destruct (utf8_chars s) as [|[|b c] cs].
  - split; [|constructor]. by exists a, "", s.
  - destruct IH as [(? & ? & ? & _ & ? & _) _]. done.
  - destruct IH as [(b' & conts & r & -> & [= <- <-] & Hconts) Hcs].
    destruct (utf8_continuation b) eqn:Hb.
    + split; [|done]. exists a, (String b c), (String b r).
      split_and!; [done..|]. cbn [all_bytes]. by rewrite Hb, Hconts.
    + split; [by exists a, "", (String b r)|].
      constructor; [|done]. cbn [whole_char]. by rewrite Hb, Hconts.
Qed.

Lemma utf8_chars_whole s :
  starts_whole s = true → Forall (λ c, whole_char c = true) (utf8_chars s).
Proof.
  intros Hs. pose proof (utf8_chars_shape s) as Hshape.
  destruct (utf8_chars s) as [|c cs]; [constructor|].
  destruct Hshape as [(a & conts & r & -> & -> & Hconts) Hcs].
  constructor; [|done]. cbn [whole_char]. simpl in Hs. by rewrite Hs, Hconts.
Qed.

(** X14.  The slice [base_inf[:3]] of the fallback tag is the first three
    code points of the key, the whole key when it has fewer; so the
    fallback tag of a key without base entry is those code points followed
    by ["-"]. *)
Theorem X14_fallback_tag_first_three_characters
    (base_verbs : list Candidate) (key : string) (n : nat) :
  starts_whole key = true →
  py_take_chars n key = join_chars (take n (utf8_chars key)) ∧
  (length (utf8_chars key) ≤ n → py_take_chars n key = key) ∧
  (key ∉ cand_inf <$> base_verbs →
   resolve_root base_verbs key = join_chars (take 3 (utf8_chars key)) +:+ "-").
Proof.
  intros Hkey.
  assert (∀ m, py_take_chars m key = join_chars (take m (utf8_chars key)))
    as Hslice.
  { intros m. rewrite <- (utf8_chars_join key) at 1.
    apply py_take_chars_join. by apply utf8_chars_whole. }
  split_and!.
  - apply Hslice.
  - intros Hlen. by rewrite Hslice, take_ge, utf8_chars_join.
  - intros Hnone. by rewrite resolve_root_fallback, Hslice.
Qed.

Lemma X14_fallback_tag_first_three_characters_witness :
  resolve_root BASE_VERBS "плыть" = "плы-".
Proof.
  destruct (X14_fallback_tag_first_three_characters BASE_VERBS "плыть" 3 eq_refl)
    as (_ & _ & Htag).
  apply Htag. compute_done.
Defined.

(** X15.  Deduplication loses no headword: every headword of a curated
    pair and every prefix-plus-headword of a base entry without curated
    derivatives (for a non-empty prefix) is the headword of some pool
    entry, and every pool entry was emitted by one of the three loops. *)
Theorem X15_no_headword_lost {S : Type} `{PySet S}
    (base_verbs : list Candidate)
    (curated_derivs : list (string * list (string * string)))
    (prefixes : list string) :
  (∀ key pairs v g,
      (key, pairs) ∈ curated_derivs → (v, g) ∈ pairs →
      v ∈ cand_inf <$> build_candidate_forms base_verbs curated_derivs prefixes) ∧
  (∀ b p,
      b ∈ base_verbs → dict_contains curated_derivs (cand_inf b) = false →
      p ∈ prefixes → p ≠ "" →
      p +:+ cand_inf b
        ∈ cand_inf <$> build_candidate_forms base_verbs curated_derivs prefixes) ∧
  (∀ c,
      c ∈ build_candidate_forms base_verbs curated_derivs prefixes →
      c ∈ base_verbs ∨
      (∃ key pairs, (key, pairs) ∈ curated_derivs ∧
                    (cand_inf c, cand_gloss c) ∈ pairs ∧
                    cand_root c = resolve_root base_verbs key) ∨
      (∃ b p, b ∈ base_verbs ∧ p ∈ prefixes ∧
              dict_contains curated_derivs (cand_inf b) = false ∧
              c = (cand_root b, p +:+ cand_inf b,
                   cand_gloss b +:+ " (prefixed)"))).
Proof.
  rewrite build_candidate_forms_spec. unfold spec_form_generator.
  split_and!.
  - intros key pairs v g Hkey Hvg. apply keep_first_headwords.
    apply list_elem_of_fmap. exists (resolve_root base_verbs key, v, g).
    split; [done|]. unfold spec_emitted. rewrite !elem_of_app. right. left.
    apply spec_derived_segment_elem. by exists key, pairs, v, g.
  - intros b p Hb Hcur Hp Hne. apply keep_first_headwords.
    apply list_elem_of_fmap.
    exists (cand_root b, p +:+ cand_inf b, cand_gloss b +:+ " (prefixed)").
    split; [done|]. unfold spec_emitted. rewrite !elem_of_app. right. right.
    apply spec_prefixed_segment_elem. exists b, p. split_and!; try done.
    by rewrite degenerate_prefix.
  - intros c Hc.
    assert (c ∈ spec_emitted base_verbs curated_derivs prefixes) as Hem
      by (eapply elem_of_sublist; [exact Hc|apply keep_first_sublist]).
    unfold spec_emitted in Hem.
    apply elem_of_app in Hem as [Hb|[Hd|Hp]%elem_of_app].
    + by left.
    + right. left.
      apply spec_derived_segment_elem in Hd as (key & pairs & v & g & ? & ? & ->).
      by exists key, pairs.
    + right. right.
      apply spec_prefixed_segment_elem in Hp as (b & p & ? & ? & ? & _ & ->).
      by exists b, p.
Qed.
